(** * Event router of the drum machine (apps/drum_machine.py)

    A shallow embedding of the routing code of the drum-machine
    application: the sequencer callbacks [sequencer_press] and
    [sequencer_release], the MIDI input path [midi_process_message],
    [midi_process_messages] and one pass of [midi_task], the touch
    handler [ttp_press] and the grid editor callback
    [update_sequencer_track].

    Calls on external collaborators (voices, MIDI transports, display,
    pattern store) are recorded, in program order, in a trace of events.
    Python integers are [Z]; Python's [%] with a positive right operand
    is [Z.modulo].  Velocities handed to a voice are Python floats; they
    are idealised here as exact rationals ([Q]), and [int(x)] as
    truncation towards zero. *)

From Stdlib Require Import ZArith QArith Lia.
From stdpp Require Import base list.

Close Scope Q_scope.
Open Scope Z_scope.

(** ** Voices *)

(** The classes of [synthvoice.percussive] instantiated by the script. *)
Inductive Voice : Set :=
  Kick | Snare | ClosedHat | OpenHat | FloorTom | MidTom | HighTom | Ride.

(** The module-level tuple [voices], in source order. *)
Definition voices : list Voice :=
  [Kick; Snare; ClosedHat; OpenHat; FloorTom; MidTom; HighTom; Ride].

(** [len(voices)] *)
Definition len_voices : Z := Z.of_nat (length voices).

(** ** MIDI messages *)

(** The message classes of [adafruit_midi] the script distinguishes.
    [NoteOn] and [NoteOff] carry [note], [velocity] and [channel];
    [MIDIOther] stands for every other recognised message class;
    [MIDIUnknownEvent] carries only its status byte and has no channel. *)
Inductive MIDIMessage : Set :=
| NoteOn (note velocity : Z) (channel : option Z)
| NoteOff (note velocity : Z) (channel : option Z)
| MIDIOther (channel : option Z)
| MIDIUnknownEvent (status : Z).

(** [msg.channel] *)
Definition channel_of (msg : MIDIMessage) : option Z :=
  match msg with
  | NoteOn _ _ c | NoteOff _ _ c | MIDIOther c => c
  | MIDIUnknownEvent _ => None
  end.

(** [isinstance(msg, MIDIUnknownEvent)] *)
Definition is_unknown (msg : MIDIMessage) : bool :=
  match msg with MIDIUnknownEvent _ => true | _ => false end.

(** ** Settings *)

(** The attributes of the [settings] module read by the router. *)
Record Settings : Set := {
  midi_thru : bool;
  midi_channel : option Z;
  keyboard_touch : bool
}.

(** ** Traces *)

Inductive Transport : Set := Usb | Uart.

(** One call on an external collaborator:
    [voices[track].press(velocity)], [voices[track].release()],
    [hardware.midi_usb.send(msg)] / [hardware.midi_uart.send(msg)],
    and [lcd_menu.draw()]. *)
Inductive Event : Set :=
| VoicePress (track : Z) (velocity : Q)
| VoiceRelease (track : Z)
| MidiSend (port : Transport) (msg : MIDIMessage)
| MenuDraw.

Definition is_voice_event (e : Event) : bool :=
  match e with VoicePress _ _ | VoiceRelease _ => true | _ => false end.

Definition is_midi_send (e : Event) : bool :=
  match e with MidiSend _ _ => true | _ => false end.

(** The sub-trace of calls on voices. *)
Definition voice_events (tr : list Event) : list Event :=
  List.filter is_voice_event tr.

(** The sub-trace of outgoing MIDI. *)
Definition midi_sends (tr : list Event) : list Event :=
  List.filter is_midi_send tr.

(** ** Numbers *)

(** Python's [int(x)] on a float: truncation towards zero. *)
Definition py_int (x : Q) : Z := Z.quot (Qnum x) (Z.pos (Qden x)).

(** Python's [!=] between two values that are [None] or an integer. *)
Definition py_ne (a b : option Z) : bool :=
  match a, b with
  | Some x, Some y => negb (x =? y)
  | None, None => false
  | _, _ => true
  end.

(** ** Sequencer callbacks *)

(** [sequencer_press(notenum, velocity)] *)
Definition sequencer_press (s : Settings) (notenum : Z) (velocity : Q)
  : list Event :=
  let msg := NoteOn notenum (py_int (velocity * 127)%Q) (midi_channel s) in
  [ VoicePress ((notenum - 1) mod len_voices) velocity;
    MidiSend Uart msg;
    MidiSend Usb msg ].

(** [sequencer_release(notenum)] *)
Definition sequencer_release (notenum : Z) : list Event :=
  let voice := (notenum - 1) mod len_voices in
  let msg := NoteOff notenum 0 None in
  (if voice =? 3 then [VoiceRelease (voice + 1)] else [])
  ++ [ VoiceRelease voice;
       MidiSend Uart msg;
       MidiSend Usb msg ].

(** ** MIDI input *)

(** The early [return] of [midi_process_message]:
    [settings.midi_channel is not None and msg.channel != settings.midi_channel]. *)
Definition channel_rejected (s : Settings) (msg : MIDIMessage) : bool :=
  match midi_channel s with
  | None => false
  | Some c => py_ne (channel_of msg) (Some c)
  end.

(** [midi_process_message(msg)] *)
Definition midi_process_message (s : Settings) (msg : MIDIMessage)
  : list Event :=
  (if midi_thru s && negb (is_unknown msg)
   then [MidiSend Usb msg; MidiSend Uart msg] else [])
  ++
  (if channel_rejected s msg then []
   else match msg with
        | NoteOn note velocity _ =>
            if 0 <? velocity
            then [VoicePress ((note - 1) mod len_voices) (inject_Z velocity)]
            else [VoiceRelease ((note - 1) mod len_voices)]
        | NoteOff note _ _ =>
            [VoiceRelease ((note - 1) mod len_voices)]
        | _ => []
        end).

(** An input transport is modelled by the results its successive
    [receive()] calls give: [Some msg], or [None] when nothing is
    available; once the list is used up, [receive()] keeps answering
    [None]. *)

(** [midi_process_messages(midi, limit)]: returns what is left of the
    transport and the trace.  [while limit:] runs as long as the counter
    is not zero. *)
Fixpoint midi_process_messages (s : Settings) (limit : Z)
    (midi : list (option MIDIMessage)) {struct midi}
  : list (option MIDIMessage) * list Event :=
  if limit =? 0 then (midi, [])
  else match midi with
       | [] => ([], [])
       | None :: rest => (rest, [])
       | Some msg :: rest =>
           let r := midi_process_messages s (limit - 1) rest in
           (r.1, midi_process_message s msg ++ r.2)
       end.

(** The default value of the parameter [limit]. *)
Definition default_limit : Z := 32.

(** The two input transports of [hardware]. *)
Record Hardware : Set := {
  midi_usb : list (option MIDIMessage);
  midi_uart : list (option MIDIMessage)
}.

(** One turn of the [while True] loop of [midi_task], up to the
    [await]. *)
Definition midi_task_pass (s : Settings) (hw : Hardware)
  : Hardware * list Event :=
  let u := midi_process_messages s default_limit (midi_usb hw) in
  let a := midi_process_messages s default_limit (midi_uart hw) in
  ({| midi_usb := u.1; midi_uart := a.1 |}, u.2 ++ a.2).

(** ** Touch *)

(** Python's [l[i]] on a sequence of [len] elements: the list position
    read, or [None] for [IndexError]. *)
Definition py_index (len i : Z) : option nat :=
  if 0 <=? i then (if i <? len then Some (Z.to_nat i) else None)
  else (if 0 <=? len + i then Some (Z.to_nat (len + i)) else None).

Module synthmenu.

(** A [synthmenu.Sequence]: the values of its step items and its
    [length]. *)
Record Sequence : Set := { items : list bool; length : Z }.

(** What the handler can tell about a menu item: a [Sequence] (a
    subclass of [Group]), another [Group] with its [current_item], or
    an item that is not a group. *)
Inductive Item : Set :=
| Leaf
| Group (current_item : Item)
| Seq (sq : Sequence).

End synthmenu.

(** The sequence the handler edits: [lcd_menu.selected], or its current
    item when the selection is a plain group; [None] when that is not a
    [Sequence]. *)
Definition focused (selected : synthmenu.Item) : option synthmenu.Sequence :=
  let sequence :=
    match selected with synthmenu.Group c => c | _ => selected end in
  match sequence with synthmenu.Seq sq => Some sq | _ => None end.

(** The selection after the focused sequence has been updated in place. *)
Definition refocus (selected : synthmenu.Item) (sq : synthmenu.Sequence)
  : synthmenu.Item :=
  match selected with
  | synthmenu.Group _ => synthmenu.Group (synthmenu.Seq sq)
  | _ => synthmenu.Seq sq
  end.

(** [step.value = not step.value] on the step at list position [i]. *)
Definition toggle (sq : synthmenu.Sequence) (i : nat) (step : bool)
  : synthmenu.Sequence :=
  {| synthmenu.items := <[i := negb step]> (synthmenu.items sq);
     synthmenu.length := synthmenu.length sq |}.

(** [ttp_press(position)] on the selection [lcd_menu.selected]: the
    selection afterwards and the trace, or [None] when the indexing
    raises ([ZeroDivisionError], [IndexError]). *)
Definition ttp_press (s : Settings) (selected : synthmenu.Item)
    (position : Z) : option (synthmenu.Item * list Event) :=
  if negb (keyboard_touch s) then Some (selected, [])
  else match focused selected with
       | None => Some (selected, [])
       | Some sq =>
           if synthmenu.length sq =? 0 then None
           else
             i ← py_index (Z.of_nat (length (synthmenu.items sq)))
                          (position mod synthmenu.length sq);
             step ← synthmenu.items sq !! i;
             Some (refocus selected (toggle sq i step), [MenuDraw])
       end.

(** ** Pattern store *)

Module sequencer.

(** Modelled from the spec: the pattern store of the
    [synthkeyboard.Sequencer] object, whose code is not part of the
    script.  A grid of tracks by positions, each cell holding a note
    number or nothing; [has_note] fails on a cell outside the grid,
    [set_note] overwrites, [remove_note] does nothing on an empty
    cell, and writes outside the grid are rejected without mutation. *)
Definition tracks (g : list (list (option Z))) : Z :=
  Z.of_nat (length g).

(** Modelled from the spec: the content of a cell, [None] when the track
    or the position lies outside the grid. *)
Definition cell (g : list (list (option Z))) (position track : Z)
  : option (option Z) :=
  if (track <? 0) || (position <? 0) then None
  else row ← g !! Z.to_nat track; row !! Z.to_nat position.

(** Modelled from the spec: a write to a cell; outside the grid it is
    rejected and nothing changes.  How the rejection is reported to the
    caller is not modelled: the properties below are about writes inside
    the grid, or hold however it is reported. *)
Definition put (g : list (list (option Z))) (position track : Z)
    (v : option Z) : list (list (option Z)) :=
  if (track <? 0) || (position <? 0) then g
  else match g !! Z.to_nat track with
       | Some row =>
           <[Z.to_nat track := <[Z.to_nat position := v]> row]> g
       | None => g
       end.

(** Modelled from the spec: [has_note(position, track)], failing outside
    the grid. *)
Definition has_note (g : list (list (option Z))) (position track : Z)
  : option bool :=
  c ← cell g position track; Some (bool_decide (is_Some c)).

(** Modelled from the spec: [set_note(position, notenum, track)]
    overwrites the cell. *)
Definition set_note (g : list (list (option Z)))
    (position notenum track : Z) : list (list (option Z)) :=
  put g position track (Some notenum).

(** Modelled from the spec: [remove_note(position, track)] empties the
    cell. *)
Definition remove_note (g : list (list (option Z)))
    (position track : Z) : list (list (option Z)) :=
  put g position track None.

End sequencer.

(** The mutating calls the grid editor makes on the sequencer. *)
Inductive StoreCall : Set :=
| SetNote (position notenum track : Z)
| RemoveNote (position track : Z).

(** The body of [for i, state in enumerate(value)], from index [i] on:
    the store afterwards and the calls made, or [None] when [has_note]
    raises. *)
Fixpoint track_loop (g : list (list (option Z))) (track i : Z)
    (value : list bool)
  : option (list (list (option Z)) * list StoreCall) :=
  match value with
  | [] => Some (g, [])
  | state :: rest =>
      if state then
        present ← sequencer.has_note g i track;
        if negb present then
          r ← track_loop (sequencer.set_note g i (track + 1) track)
                         track (i + 1) rest;
          Some (r.1, SetNote i (track + 1) track :: r.2)
        else track_loop g track (i + 1) rest
      else
        r ← track_loop (sequencer.remove_note g i track) track (i + 1) rest;
        Some (r.1, RemoveNote i track :: r.2)
  end.

(** [update_sequencer_track(track, value)] *)
Definition update_sequencer_track (g : list (list (option Z)))
    (track : Z) (value : list bool)
  : option (list (list (option Z)) * list StoreCall) :=
  if (sequencer.tracks g <? track) || (track <? 0) then Some (g, [])
  else track_loop g track 0 value.

(** ** Vocabulary of the properties *)

(** The index of the voice a call acts on. *)
Definition voice_track (e : Event) : option Z :=
  match e with
  | VoicePress t _ | VoiceRelease t => Some t
  | _ => None
  end.

(** What C2 asks of the trace for note [n]: a voice is acted upon, and
    every call on a voice goes to the one at index [(n - 1) mod 8]. *)
Definition acts_on_resolved_voice (n : Z) (tr : list Event) : Prop :=
  voice_events tr <> [] /\
  forall e, e ∈ voice_events tr -> voice_track e = Some ((n - 1) mod 8).

(** The thru echo with which [midi_process_message] starts. *)
Definition thru_echo (s : Settings) (msg : MIDIMessage) : list Event :=
  if midi_thru s && negb (is_unknown msg)
  then [MidiSend Usb msg; MidiSend Uart msg] else [].

(** What C5 asks of a trace: each press or release of a voice in it is
    accompanied, on both transports, by a Note-On (for a press) or a
    Note-Off (for a release) whose note resolves to that voice. *)
Definition mirrored (tr : list Event) : Prop :=
  forall e, e ∈ tr ->
    match e with
    | VoicePress t _ =>
        exists n vel ch, (n - 1) mod 8 = t /\
          MidiSend Usb (NoteOn n vel ch) ∈ tr /\
          MidiSend Uart (NoteOn n vel ch) ∈ tr
    | VoiceRelease t =>
        exists n vel ch, (n - 1) mod 8 = t /\
          MidiSend Usb (NoteOff n vel ch) ∈ tr /\
          MidiSend Uart (NoteOff n vel ch) ∈ tr
    | _ => True
    end.

(** What C6 asks of a touch press on a pattern-edit focused selection:
    the handler returns, the same sequence is still focused, and its
    step at [p mod length] has changed value. *)
Definition touch_toggles (s : Settings) (selected : synthmenu.Item)
    (p : Z) : Prop :=
  forall sq step,
    focused selected = Some sq ->
    synthmenu.items sq !! Z.to_nat (p mod synthmenu.length sq) = Some step ->
    exists selected' tr sq',
      ttp_press s selected p = Some (selected', tr) /\
      focused selected' = Some sq' /\
      synthmenu.items sq' !! Z.to_nat (p mod synthmenu.length sq)
      = Some (negb step).

(** The [position] argument of a call on the store. *)
Definition call_position (c : StoreCall) : Z :=
  match c with SetNote p _ _ | RemoveNote p _ => p end.

(** The [track] argument of a call on the store. *)
Definition call_track (c : StoreCall) : Z :=
  match c with SetNote _ _ t | RemoveNote _ t => t end.

(** The calls made on position [p], in order. *)
Definition calls_at (p : Z) (calls : list StoreCall) : list StoreCall :=
  List.filter (fun c => call_position c =? p) calls.

(** The calls [update_sequencer_track] is to make for one cell, given
    the store before the update. *)
Definition cell_calls (g : list (list (option Z))) (track p : Z)
    (state : bool) : list StoreCall :=
  if state then
    match sequencer.has_note g p track with
    | Some false => [SetNote p (track + 1) track]
    | _ => []
    end
  else [RemoveNote p track].

(** What C7 asks of an update: for each cell of the vector, one call
    when the presence of a note changes and none when it does not. *)
Definition calls_only_for_changes (g : list (list (option Z))) (track : Z)
    (value : list bool) : Prop :=
  forall g' calls,
    update_sequencer_track g track value = Some (g', calls) ->
    forall (j : nat) (state had : bool),
      value !! j = Some state ->
      sequencer.has_note g (Z.of_nat j) track = Some had ->
      length (calls_at (Z.of_nat j) calls)
      = (if Bool.eqb had state then 0 else 1)%nat.

(** One drain of a transport with bound [limit]: the messages [msgs]
    were received and processed, in order; either the bound was reached
    and everything after them is still queued, or [receive()] answered
    nothing right after them and the drain stopped there. *)
Definition drained (limit : nat) (before after : list (option MIDIMessage))
    (msgs : list MIDIMessage) : Prop :=
  (length msgs <= limit)%nat /\
  ((length msgs = limit /\ before = (Some <$> msgs) ++ after)
   \/ ((length msgs < limit)%nat /\
       before = (Some <$> msgs) ++ None :: after)
   \/ ((length msgs < limit)%nat /\
       before = Some <$> msgs /\ after = [])).

(** ** Further definitions *)

(** [n] turns of the [while True] loop of [midi_task]: the transports
    afterwards and the whole trace. *)
Fixpoint midi_task (n : nat) (s : Settings) (hw : Hardware)
  : Hardware * list Event :=
  match n with
  | O => (hw, [])
  | S k =>
      let p := midi_task_pass s hw in
      let r := midi_task k s p.1 in
      (r.1, p.2 ++ r.2)
  end.

(** The messages a transport still has to deliver, in order. *)
Definition pending (midi : list (option MIDIMessage)) : list MIDIMessage :=
  omap id midi.

(** The trace of a run of passes, given the batch of messages each pass
    took from each transport. *)
Definition batches_trace (s : Settings)
    (usb_batches uart_batches : list (list MIDIMessage)) : list Event :=
  concat (zip_with
            (fun u a => List.flat_map (midi_process_message s) u
                        ++ List.flat_map (midi_process_message s) a)
            usb_batches uart_batches).

(** The list position of the step [ttp_press] reads for a press on
    [position] while [sq] is focused, or [None] when the subscript
    raises. *)
Definition step_index (sq : synthmenu.Sequence) (position : Z)
  : option nat :=
  if synthmenu.length sq =? 0 then None
  else py_index (Z.of_nat (length (synthmenu.items sq)))
                (position mod synthmenu.length sq).

(** A grid of [tracks] rows of [len] cells each. *)
Definition grid_shape (tracks len : nat) (g : list (list (option Z)))
  : Prop :=
  length g = tracks /\ Forall (fun row => length row = len) g.

(** Every note in the store is its track's own note number,
    [track + 1]. *)
Definition canonical_notes (g : list (list (option Z))) : Prop :=
  forall p t n, sequencer.cell g p t = Some (Some n) -> n = t + 1.

(** Modelled from the spec: the store of the object built by
    [synthkeyboard.Sequencer(length=16, tracks=len(voices), bpm=120)],
    whose constructor is not part of the script: one row of 16 empty
    cells per voice. *)
Definition initial_store : list (list (option Z)) :=
  replicate (length voices) (replicate 16 None).

(** The [on_update] callbacks of the sequence items,
    [lambda value, item, i=i: update_sequencer_track(i, value)], fired
    one after the other with the given track indices and vectors: the
    store afterwards, or [None] as soon as one of them raises. *)
Fixpoint apply_edits (g : list (list (option Z)))
    (edits : list (Z * list bool)) : option (list (list (option Z))) :=
  match edits with
  | [] => Some g
  | (track, value) :: rest =>
      r ← update_sequencer_track g track value;
      apply_edits r.1 rest
  end.

(** A call that removes a note. *)
Definition is_remove (c : StoreCall) : bool :=
  match c with RemoveNote _ _ => true | SetNote _ _ _ => false end.

(** * Properties *)

(** ** Track resolution *)

Lemma len_voices_8 : len_voices = 8.
Proof. reflexivity. Qed.

(** A resolved index always denotes an element of [voices]: the
    subscript never raises. *)
Lemma resolved_track_valid (n : Z) :
  0 <= (n - 1) mod len_voices < 8 /\
  is_Some (voices !! Z.to_nat ((n - 1) mod len_voices)).
Proof.
  rewrite len_voices_8.
  assert (H : 0 <= (n - 1) mod 8 < 8) by (apply Z.mod_pos_bound; lia).
  split; [exact H|].
  apply lookup_lt_is_Some. simpl. lia.
Qed.

(** Notes [n] and [n + 8] resolve to the same track, and the note of
    track [t] is [t + 1]. *)
Lemma resolve_canonical (n : Z) :
  ((n - 1) mod 8 + 1 - 1) mod 8 = (n - 1) mod 8.
Proof.
  replace ((n - 1) mod 8 + 1 - 1) with ((n - 1) mod 8) by lia.
  apply Z.mod_mod. lia.
Qed.

Lemma voice_events_app (a b : list Event) :
  voice_events (a ++ b) = voice_events a ++ voice_events b.
Proof. apply List.filter_app. Qed.

Lemma midi_sends_app (a b : list Event) :
  midi_sends (a ++ b) = midi_sends a ++ midi_sends b.
Proof. apply List.filter_app. Qed.

Lemma thru_echo_no_voice (s : Settings) (msg : MIDIMessage) :
  voice_events (thru_echo s msg) = [].
Proof. unfold thru_echo. destruct (_ && _); reflexivity. Qed.

Lemma thru_echo_sends (s : Settings) (msg : MIDIMessage) :
  midi_sends (thru_echo s msg) = thru_echo s msg.
Proof. unfold thru_echo. destruct (_ && _); reflexivity. Qed.

(** The calls on voices made for a message that passes the channel
    filter. *)
Lemma midi_voice_events (s : Settings) (msg : MIDIMessage) :
  channel_rejected s msg = false ->
  voice_events (midi_process_message s msg) =
  match msg with
  | NoteOn note velocity _ =>
      if 0 <? velocity
      then [VoicePress ((note - 1) mod 8) (inject_Z velocity)]
      else [VoiceRelease ((note - 1) mod 8)]
  | NoteOff note _ _ => [VoiceRelease ((note - 1) mod 8)]
  | _ => []
  end.
Proof.
  intros Hc. unfold midi_process_message. rewrite Hc, voice_events_app.
  fold (thru_echo s msg). rewrite thru_echo_no_voice, len_voices_8.
  destruct msg as [n v c|n v c|c|st]; simpl; try reflexivity.
  destruct (0 <? v); reflexivity.
Qed.

(** A message on another channel than the configured one reaches no
    voice. *)
Lemma midi_rejected_no_voice (s : Settings) (msg : MIDIMessage) :
  channel_rejected s msg = true ->
  voice_events (midi_process_message s msg) = [].
Proof.
  intros Hc. unfold midi_process_message. rewrite Hc, app_nil_r.
  apply thru_echo_no_voice.
Qed.

Lemma clock_release_voice_events (n : Z) :
  voice_events (sequencer_release n) =
  (if (n - 1) mod 8 =? 3 then [VoiceRelease 4] else [])
  ++ [VoiceRelease ((n - 1) mod 8)].
Proof.
  unfold sequencer_release. rewrite len_voices_8, voice_events_app.
  destruct ((n - 1) mod 8 =? 3) eqn:E; simpl; [|reflexivity].
  apply Z.eqb_eq in E. rewrite E. reflexivity.
Qed.

Lemma clock_release_midi_sends (n : Z) :
  midi_sends (sequencer_release n)
  = [MidiSend Uart (NoteOff n 0 None); MidiSend Usb (NoteOff n 0 None)].
Proof.
  unfold sequencer_release. rewrite midi_sends_app.
  destruct (_ =? 3); reflexivity.
Qed.

Lemma midi_sends_elem (e : Event) (tr : list Event) :
  e ∈ tr -> is_midi_send e = true -> e ∈ midi_sends tr.
Proof.
  intros Hin Hv. unfold midi_sends.
  apply list_elem_of_In, List.filter_In.
  split; [apply list_elem_of_In, Hin | exact Hv].
Qed.

(** What follows the echo in [midi_process_message] sends nothing. *)
Lemma midi_input_sends (s : Settings) (msg : MIDIMessage) :
  midi_sends (midi_process_message s msg) = thru_echo s msg.
Proof.
  unfold midi_process_message. fold (thru_echo s msg).
  rewrite midi_sends_app, thru_echo_sends.
  destruct (channel_rejected s msg); [apply app_nil_r|].
  destruct msg as [n v c|n v c|c|st]; simpl; try apply app_nil_r.
  destruct (0 <? v); simpl; apply app_nil_r.
Qed.

(** Every message the MIDI input path sends is the incoming message
    itself, sent because thru is on and the message is recognised. *)
Lemma midi_input_send_is_echo (s : Settings) (msg m : MIDIMessage)
    (port : Transport) :
  MidiSend port m ∈ midi_process_message s msg ->
  m = msg /\ midi_thru s = true /\ is_unknown msg = false.
Proof.
  intros Hin. apply midi_sends_elem in Hin; [|reflexivity].
  rewrite midi_input_sends in Hin. unfold thru_echo in Hin.
  destruct (midi_thru s), (is_unknown msg); simpl in Hin;
    try (apply elem_of_nil in Hin; contradiction).
  apply elem_of_cons in Hin as [Hin|Hin]; [inversion Hin; auto|].
  apply list_elem_of_singleton in Hin. inversion Hin; auto.
Qed.

(** C1 (MIDI-In part): a Note-Off that passes the channel filter and
    resolves to track 3 releases track 3 alone, while the sequencer
    callback on the same note releases track 4 first and then track 3.
    The choke of [sequencer_release] is absent from the MIDI input
    path. *)
Theorem midi_release_has_no_choke (s : Settings) (note vel : Z)
    (ch : option Z) :
  channel_rejected s (NoteOff note vel ch) = false ->
  (note - 1) mod 8 = 3 ->
  voice_events (sequencer_release note) = [VoiceRelease 4; VoiceRelease 3]
  /\ voice_events (midi_process_message s (NoteOff note vel ch))
     = [VoiceRelease 3]
  /\ VoiceRelease 4 ∉ midi_process_message s (NoteOff note vel ch).
Proof.
  intros Hc Ht. split; [|split].
  - rewrite clock_release_voice_events, Ht. reflexivity.
  - rewrite (midi_voice_events _ _ Hc), Ht. reflexivity.
  - intros Hin.
    assert (Hv : VoiceRelease 4 ∈
                 voice_events (midi_process_message s (NoteOff note vel ch))).
    { unfold voice_events. apply list_elem_of_In, List.filter_In.
      split; [apply list_elem_of_In, Hin | reflexivity]. }
    rewrite (midi_voice_events _ _ Hc), Ht in Hv.
    apply list_elem_of_singleton in Hv. discriminate.
Qed.

Lemma midi_release_has_no_choke_witness :
  let s := {| midi_thru := false; midi_channel := Some 9;
              keyboard_touch := true |} in
  voice_events (sequencer_release 4) = [VoiceRelease 4; VoiceRelease 3]
  /\ voice_events (midi_process_message s (NoteOff 4 0 (Some 9)))
     = [VoiceRelease 3]
  /\ VoiceRelease 4 ∉ midi_process_message s (NoteOff 4 0 (Some 9)).
Proof.
  apply (midi_release_has_no_choke
           {| midi_thru := false; midi_channel := Some 9;
              keyboard_touch := true |} 4 0 (Some 9));
    reflexivity.
Defined.

(** The voices the choke of [sequencer_release] couples, by position in
    the tuple: index 3 holds the open hat and index 4 the floor tom; the
    closed hat is at index 2. *)
Lemma choke_indices_in_voices :
  voices !! 2%nat = Some ClosedHat /\
  voices !! 3%nat = Some OpenHat /\
  voices !! 4%nat = Some FloorTom.
Proof. repeat split. Qed.

(** C2, as stated, fails: the clock release of note 4 acts on two
    voices, the one at index 4 and then the one at index 3, where
    [(4 - 1) mod 8] is 3. *)
Lemma clock_release_acts_on_two_voices :
  voice_events (sequencer_release 4) = [VoiceRelease 4; VoiceRelease 3]
  /\ ~ acts_on_resolved_voice 4 (sequencer_release 4).
Proof.
  split; [reflexivity|]. intros [_ H].
  specialize (H (VoiceRelease 4) (list_elem_of_here _ _)).
  discriminate H.
Qed.

(** C2, amended: every note number [n] coming from clock playback
    (press or release) or from MIDI-In (Note-On or Note-Off, channel
    filter passed) acts on the voice at index [t = (n - 1) mod 8], a
    valid index of [voices]; the clock press and the MIDI-In paths act
    on that voice alone; the clock release releases it last and, only
    when [t] is 3, releases the voice at index 4 just before (the
    choke), and acts on no other voice; the calls on voices for note [n]
    are those for the note [t + 1] of the resolved track itself. *)
Theorem note_resolves_to_track (s : Settings) (n vel : Z) (v : Q)
    (ch : option Z) :
  channel_rejected s (NoteOn n vel ch) = false ->
  let t := (n - 1) mod 8 in
  (0 <= t < 8 /\ is_Some (voices !! Z.to_nat t))
  /\ voice_events (sequencer_press s n v) = [VoicePress t v]
  /\ voice_events (sequencer_release n)
     = (if t =? 3 then [VoiceRelease 4] else []) ++ [VoiceRelease t]
  /\ (t <> 3 -> acts_on_resolved_voice n (sequencer_release n))
  /\ acts_on_resolved_voice n (sequencer_press s n v)
  /\ acts_on_resolved_voice n (midi_process_message s (NoteOn n vel ch))
  /\ acts_on_resolved_voice n (midi_process_message s (NoteOff n vel ch))
  /\ voice_events (midi_process_message s (NoteOn n vel ch))
     = (if 0 <? vel then [VoicePress t (inject_Z vel)]
        else [VoiceRelease t])
  /\ voice_events (midi_process_message s (NoteOff n vel ch))
     = [VoiceRelease t]
  /\ voice_events (sequencer_press s n v)
     = voice_events (sequencer_press s (t + 1) v)
  /\ voice_events (sequencer_release n)
     = voice_events (sequencer_release (t + 1))
  /\ voice_events (midi_process_message s (NoteOn n vel ch))
     = voice_events (midi_process_message s (NoteOn (t + 1) vel ch))
  /\ voice_events (midi_process_message s (NoteOff n vel ch))
     = voice_events (midi_process_message s (NoteOff (t + 1) vel ch)).
Proof.
  intros Hc t.
  assert (Hoff : forall m, channel_rejected s (NoteOff m vel ch) = false)
    by (intros m; exact Hc).
  assert (Hon : forall m, channel_rejected s (NoteOn m vel ch) = false)
    by (intros m; exact Hc).
  assert (Hcan : (t + 1 - 1) mod 8 = t) by apply resolve_canonical.
  assert (Hpress : voice_events (sequencer_press s n v) = [VoicePress t v])
    by reflexivity.
  assert (Hone : forall tr e,
             voice_events tr = [e] -> voice_track e = Some t ->
             acts_on_resolved_voice n tr).
  { intros tr e Htr He. split; [rewrite Htr; discriminate|].
    intros e' He'. rewrite Htr in He'.
    apply list_elem_of_singleton in He'. subst e'. exact He. }
  split; [apply (resolved_track_valid n)|].
  split; [exact Hpress|].
  split; [apply clock_release_voice_events|].
  split.
  { intros Ht. apply (Hone _ (VoiceRelease t)); [|reflexivity].
    rewrite clock_release_voice_events. fold t.
    apply Z.eqb_neq in Ht. rewrite Ht. reflexivity. }
  split; [apply (Hone _ _ Hpress); reflexivity|].
  split.
  { pose proof (midi_voice_events _ _ (Hon n)) as Hv.
    cbv beta iota in Hv. fold t in Hv.
    destruct (0 <? vel); apply (Hone _ _ Hv); reflexivity. }
  split.
  { apply (Hone _ _ (midi_voice_events _ _ (Hoff n))). reflexivity. }
  split; [apply (midi_voice_events _ _ (Hon n))|].
  split; [apply (midi_voice_events _ _ (Hoff n))|].
  split.
  { unfold sequencer_press. simpl. rewrite len_voices_8, Hcan.
    reflexivity. }
  split; [rewrite !clock_release_voice_events, Hcan; reflexivity|].
  split.
  - rewrite (midi_voice_events _ _ (Hon n)),
      (midi_voice_events _ _ (Hon (t + 1))), Hcan. reflexivity.
  - rewrite (midi_voice_events _ _ (Hoff n)),
      (midi_voice_events _ _ (Hoff (t + 1))), Hcan. reflexivity.
Qed.

Lemma note_resolves_to_track_witness :
  let s := {| midi_thru := true; midi_channel := Some 2;
              keyboard_touch := true |} in
  channel_rejected s (NoteOn 44 100 (Some 2)) = false /\
  voice_events (sequencer_press s 44 (1 # 2)) = [VoicePress 3 (1 # 2)] /\
  voice_events (sequencer_release 44) = [VoiceRelease 4; VoiceRelease 3] /\
  voice_events (midi_process_message s (NoteOn 44 100 (Some 2)))
  = [VoicePress 3 (inject_Z 100)].
Proof.
  pose proof (note_resolves_to_track
                {| midi_thru := true; midi_channel := Some 2;
                   keyboard_touch := true |} 44 100 (1 # 2) (Some 2)
                eq_refl) as H.
  simpl in H.
  destruct H as (_ & Hp & Hr & _ & _ & _ & _ & Hm & _).
  split; [reflexivity|]. split; [exact Hp|]. split; [exact Hr|exact Hm].
Defined.

(** ** MIDI input *)

Lemma voice_events_elem (e : Event) (tr : list Event) :
  e ∈ tr -> is_voice_event e = true -> e ∈ voice_events tr.
Proof.
  intros Hin Hv. unfold voice_events.
  apply list_elem_of_In, List.filter_In.
  split; [apply list_elem_of_In, Hin | exact Hv].
Qed.

Lemma voice_events_sub (e : Event) (tr : list Event) :
  e ∈ voice_events tr -> e ∈ tr.
Proof.
  unfold voice_events. intros Hin.
  apply list_elem_of_In in Hin. apply List.filter_In in Hin.
  apply list_elem_of_In, Hin.
Qed.

(** C3: a Note-On that passes the channel filter issues, when its
    velocity is 0, a release of the resolved voice and no press at all,
    and when its velocity is positive, a press of the resolved voice
    (and no release). *)
Theorem note_on_velocity_zero_is_release (s : Settings) (note vel : Z)
    (ch : option Z) :
  channel_rejected s (NoteOn note vel ch) = false ->
  let tr := midi_process_message s (NoteOn note vel ch) in
  (vel = 0 ->
     VoiceRelease ((note - 1) mod 8) ∈ tr /\
     forall t v, VoicePress t v ∉ tr)
  /\
  (0 < vel ->
     VoicePress ((note - 1) mod 8) (inject_Z vel) ∈ tr /\
     forall t, VoiceRelease t ∉ tr).
Proof.
  intros Hc tr. pose proof (midi_voice_events _ _ Hc) as Hv.
  cbv beta iota in Hv. fold tr in Hv. split.
  - intros ->. change (0 <? 0) with false in Hv. split.
    + apply voice_events_sub. rewrite Hv. apply list_elem_of_here.
    + intros t v Hin. apply voice_events_elem in Hin; [|reflexivity].
      rewrite Hv in Hin. apply list_elem_of_singleton in Hin. discriminate.
  - intros Hpos. apply Z.ltb_lt in Hpos. rewrite Hpos in Hv. split.
    + apply voice_events_sub. rewrite Hv. apply list_elem_of_here.
    + intros t Hin. apply voice_events_elem in Hin; [|reflexivity].
      rewrite Hv in Hin. apply list_elem_of_singleton in Hin. discriminate.
Qed.

Lemma note_on_velocity_zero_is_release_witness :
  let s := {| midi_thru := true; midi_channel := Some 5;
              keyboard_touch := false |} in
  VoiceRelease 1 ∈ midi_process_message s (NoteOn 2 0 (Some 5)) /\
  forall t v, VoicePress t v ∉ midi_process_message s (NoteOn 2 0 (Some 5)).
Proof.
  exact (proj1 (note_on_velocity_zero_is_release
                  {| midi_thru := true; midi_channel := Some 5;
                     keyboard_touch := false |} 2 0 (Some 5) eq_refl)
               eq_refl).
Defined.

(** C4: an incoming message is sent unchanged on both output transports
    exactly when [settings.midi_thru] is set and the message is not a
    [MIDIUnknownEvent]; these two sends open the trace, before anything
    else is done with the message, and nothing else is ever sent;
    and when a channel is configured and the message's channel differs,
    nothing follows the echo: no voice is pressed or released. *)
Theorem thru_echo_then_channel_filter (s : Settings) (msg : MIDIMessage) :
  let tr := midi_process_message s msg in
  exists rest,
    tr = (if midi_thru s && negb (is_unknown msg)
          then [MidiSend Usb msg; MidiSend Uart msg] else []) ++ rest
    /\ midi_sends rest = []
    /\ ((MidiSend Usb msg ∈ tr /\ MidiSend Uart msg ∈ tr)
        <-> (midi_thru s = true /\ is_unknown msg = false))
    /\ (forall port m, MidiSend port m ∈ tr -> m = msg)
    /\ (forall c, midi_channel s = Some c -> channel_of msg <> Some c ->
        rest = [] /\ voice_events tr = []).
Proof.
  intros tr. unfold tr.
  exists (if channel_rejected s msg then []
          else match msg with
               | NoteOn note velocity _ =>
                   if 0 <? velocity
                   then [VoicePress ((note - 1) mod len_voices)
                           (inject_Z velocity)]
                   else [VoiceRelease ((note - 1) mod len_voices)]
               | NoteOff note _ _ =>
                   [VoiceRelease ((note - 1) mod len_voices)]
               | _ => []
               end).
  split; [reflexivity|]. split; [|split; [|split]].
  - destruct (channel_rejected s msg); [reflexivity|].
    destruct msg as [n v c|n v c|c|st]; try reflexivity.
    simpl. destruct (0 <? v); reflexivity.
  - split.
    + intros [Hu _]. apply (midi_input_send_is_echo _ _ _ _ Hu).
    + intros [Ht Hk]. unfold midi_process_message. rewrite Ht, Hk. simpl.
      split; [apply list_elem_of_here|].
      apply list_elem_of_further, list_elem_of_here.
  - intros port m Hin. apply (midi_input_send_is_echo _ _ _ _ Hin).
  - intros c Hch Hne.
    assert (Hrej : channel_rejected s msg = true).
    { unfold channel_rejected. rewrite Hch.
      destruct (channel_of msg) as [x|]; simpl; [|reflexivity].
      destruct (x =? c) eqn:E; [|reflexivity].
      apply Z.eqb_eq in E. congruence. }
    rewrite Hrej. split; [reflexivity|].
    apply (midi_rejected_no_voice _ _ Hrej).
Qed.

(** The scenario of the specification: thru on, channel 5 configured, a
    Note-On on channel 3 is echoed on both transports and presses
    nothing. *)
Example thru_channel_scenario :
  midi_process_message
    {| midi_thru := true; midi_channel := Some 5; keyboard_touch := true |}
    (NoteOn 1 100 (Some 3))
  = [MidiSend Usb (NoteOn 1 100 (Some 3));
     MidiSend Uart (NoteOn 1 100 (Some 3))].
Proof. reflexivity. Qed.

(** C9 (MIDI-In part): a Note-On with a velocity above 1 that passes the
    channel filter presses the resolved voice with that very number,
    unscaled, which lies outside the interval from 0 to 1. *)
Theorem midi_press_velocity_unscaled (s : Settings) (note vel : Z)
    (ch : option Z) :
  channel_rejected s (NoteOn note vel ch) = false ->
  1 < vel ->
  VoicePress ((note - 1) mod 8) (inject_Z vel)
    ∈ midi_process_message s (NoteOn note vel ch)
  /\ ~ (inject_Z vel <= 1)%Q.
Proof.
  intros Hc Hv. split.
  - apply voice_events_sub. rewrite (midi_voice_events _ _ Hc).
    assert (E : (0 <? vel) = true) by (apply Z.ltb_lt; lia).
    rewrite E. apply list_elem_of_here.
  - unfold Qle, inject_Z. simpl. lia.
Qed.

(** The Note-On that [sequencer_press] itself sends for a press at full
    velocity, fed back to the MIDI input, presses with velocity 127. *)
Lemma midi_press_velocity_unscaled_witness :
  let s := {| midi_thru := false; midi_channel := None;
              keyboard_touch := true |} in
  MidiSend Usb (NoteOn 1 127 None) ∈ sequencer_press s 1 1
  /\ VoicePress 0 (inject_Z 127) ∈ midi_process_message s (NoteOn 1 127 None)
  /\ ~ (inject_Z 127 <= 1)%Q.
Proof.
  split.
  - apply list_elem_of_further, list_elem_of_further, list_elem_of_here.
  - apply (midi_press_velocity_unscaled
             {| midi_thru := false; midi_channel := None;
                keyboard_touch := true |} 1 127 None);
      [reflexivity | lia].
Defined.

(** ** MIDI output of the sequencer callbacks *)

(** C10: the Note-On sent for a clock press is built with
    [channel=settings.midi_channel]; the Note-Off sent for a clock
    release is built from the note number alone, so that its channel is
    unset whatever the settings are. *)
Theorem note_on_has_channel_note_off_has_none (s : Settings) (n : Z)
    (v : Q) :
  midi_sends (sequencer_press s n v)
  = [MidiSend Uart (NoteOn n (py_int (v * 127)%Q) (midi_channel s));
     MidiSend Usb (NoteOn n (py_int (v * 127)%Q) (midi_channel s))]
  /\ midi_sends (sequencer_release n)
     = [MidiSend Uart (NoteOff n 0 None); MidiSend Usb (NoteOff n 0 None)]
  /\ (forall port m, MidiSend port m ∈ sequencer_press s n v ->
        channel_of m = midi_channel s)
  /\ (forall port m, MidiSend port m ∈ sequencer_release n ->
        channel_of m = None).
Proof.
  pose proof (clock_release_midi_sends n) as Hrel.
  split; [reflexivity|]. split; [exact Hrel|]. split.
  - intros port m Hin. unfold sequencer_press in Hin.
    repeat (apply elem_of_cons in Hin as [Hin|Hin];
            [inversion Hin; subst; reflexivity|]).
    apply elem_of_nil in Hin. contradiction.
  - intros port m Hin. apply midi_sends_elem in Hin; [|reflexivity].
    rewrite Hrel in Hin.
    repeat (apply elem_of_cons in Hin as [Hin|Hin];
            [inversion Hin; subst; reflexivity|]).
    apply elem_of_nil in Hin. contradiction.
Qed.

(** [int(velocity * 127)] of a velocity between 0 and 1 is a MIDI
    velocity. *)
Lemma py_int_scaled_bounds (v : Q) :
  (0 <= v)%Q -> (v <= 1)%Q -> 0 <= py_int (v * 127)%Q <= 127.
Proof.
  destruct v as [a d]. unfold Qle, py_int. simpl. intros H0 H1.
  rewrite Pos.mul_1_r, Z.quot_div_nonneg by lia.
  split.
  - apply Z.div_pos; lia.
  - apply Z.div_le_upper_bound; lia.
Qed.

(** C5, as stated, fails: the clock release of note 4 releases voice 4
    (the choke) and voice 3, and sends Note-Off for note 4 only; the
    release of voice 4 has no Note-Off of its own. *)
Lemma choke_release_not_mirrored : ~ mirrored (sequencer_release 4).
Proof.
  intros H. specialize (H (VoiceRelease 4)).
  destruct H as (n & vel & ch & Hn & Hu & _).
  - apply list_elem_of_here.
  - change (sequencer_release 4) with
      [VoiceRelease 4; VoiceRelease 3;
       MidiSend Uart (NoteOff 4 0 None); MidiSend Usb (NoteOff 4 0 None)]
      in Hu.
    repeat (apply elem_of_cons in Hu as [Hu|Hu];
            [inversion Hu; subst; discriminate Hn|]).
    apply elem_of_nil in Hu. contradiction.
Qed.

Lemma clock_release_trace (n : Z) :
  (n - 1) mod 8 <> 3 ->
  sequencer_release n =
  [VoiceRelease ((n - 1) mod 8);
   MidiSend Uart (NoteOff n 0 None); MidiSend Usb (NoteOff n 0 None)].
Proof.
  intros Ht. unfold sequencer_release. rewrite len_voices_8.
  apply Z.eqb_neq in Ht. rewrite Ht. reflexivity.
Qed.

(** C5, amended: a clock press of note [n] presses the resolved voice
    and sends, on UART and on USB, a Note-On for [n] whose velocity
    [int(velocity * 127)] lies in 0..127 when the velocity lies in
    0..1; a clock release of note [n] releases the resolved voice and
    sends a Note-Off for [n] on both transports and nothing else, so
    that the release forced on voice 4 by the choke has no Note-Off;
    [n] is the resolved track's own note when it lies in 1..8; and the
    MIDI input path sends nothing but the thru echo of the incoming
    message, once on each transport. *)
Theorem clock_callbacks_mirrored (s : Settings) (n : Z) (v : Q) :
  (0 <= v)%Q -> (v <= 1)%Q ->
  let t := (n - 1) mod 8 in
  let vel := py_int (v * 127)%Q in
  0 <= vel <= 127
  /\ sequencer_press s n v
     = [VoicePress t v;
        MidiSend Uart (NoteOn n vel (midi_channel s));
        MidiSend Usb (NoteOn n vel (midi_channel s))]
  /\ mirrored (sequencer_press s n v)
  /\ VoiceRelease t ∈ sequencer_release n
  /\ midi_sends (sequencer_release n)
     = [MidiSend Uart (NoteOff n 0 None); MidiSend Usb (NoteOff n 0 None)]
  /\ (t <> 3 -> mirrored (sequencer_release n))
  /\ (1 <= n <= 8 -> n = t + 1)
  /\ (forall msg port m,
        MidiSend port m ∈ midi_process_message s msg ->
        m = msg /\ midi_thru s = true)
  /\ (forall msg,
        midi_sends (midi_process_message s msg)
        = if midi_thru s && negb (is_unknown msg)
          then [MidiSend Usb msg; MidiSend Uart msg] else []).
Proof.
  intros H0 H1 t vel.
  split; [apply py_int_scaled_bounds; assumption|].
  split; [reflexivity|]. split; [|split; [|split; [|split; [|split]]]].
  - intros e He. unfold sequencer_press in He. rewrite len_voices_8 in He.
    apply elem_of_cons in He as [->|He].
    + exists n, vel, (midi_channel s). split; [reflexivity|]. split.
      * apply list_elem_of_further, list_elem_of_further, list_elem_of_here.
      * apply list_elem_of_further, list_elem_of_here.
    + repeat (apply elem_of_cons in He as [->|He]; [exact I|]).
      apply elem_of_nil in He. contradiction.
  - apply voice_events_sub. rewrite clock_release_voice_events.
    apply elem_of_app. right. apply list_elem_of_here.
  - apply clock_release_midi_sends.
  - intros Ht e He. rewrite (clock_release_trace n Ht) in *.
    apply elem_of_cons in He as [->|He].
    + exists n, 0, None. split; [reflexivity|]. split.
      * apply list_elem_of_further, list_elem_of_further, list_elem_of_here.
      * apply list_elem_of_further, list_elem_of_here.
    + repeat (apply elem_of_cons in He as [->|He]; [exact I|]).
      apply elem_of_nil in He. contradiction.
  - intros Hn. unfold t. rewrite Z.mod_small; lia.
  - split.
    + intros msg port m Hin.
      destruct (midi_input_send_is_echo _ _ _ _ Hin) as (-> & Ht & _).
      split; [reflexivity|exact Ht].
    + intros msg. apply midi_input_sends.
Qed.

Lemma clock_callbacks_mirrored_witness :
  let s := {| midi_thru := false; midi_channel := Some 1;
              keyboard_touch := true |} in
  sequencer_press s 4 (3 # 4)
  = [VoicePress 3 (3 # 4);
     MidiSend Uart (NoteOn 4 95 (Some 1));
     MidiSend Usb (NoteOn 4 95 (Some 1))]
  /\ midi_sends (sequencer_release 4)
     = [MidiSend Uart (NoteOff 4 0 None); MidiSend Usb (NoteOff 4 0 None)].
Proof.
  assert (Ha : (0 <= 3 # 4)%Q) by (unfold Qle; simpl; lia).
  assert (Hb : (3 # 4 <= 1)%Q) by (unfold Qle; simpl; lia).
  pose proof (clock_callbacks_mirrored
                {| midi_thru := false; midi_channel := Some 1;
                   keyboard_touch := true |} 4 (3 # 4) Ha Hb) as H.
  simpl in H. destruct H as (_ & Hp & _ & _ & Hr & _).
  split; [exact Hp|exact Hr].
Defined.

(** ** Touch editing *)

(** C6, as stated, fails: with [settings.keyboard_touch] off, a press
    on position 0 while a one-step sequence is selected leaves the step
    as it was. *)
Lemma touch_disabled_no_toggle :
  ~ touch_toggles
      {| midi_thru := false; midi_channel := None; keyboard_touch := false |}
      (synthmenu.Seq {| synthmenu.items := [false]; synthmenu.length := 1 |})
      0.
Proof.
  intros H.
  destruct (H {| synthmenu.items := [false]; synthmenu.length := 1 |} false
              eq_refl eq_refl) as (sel' & tr & sq' & Hp & Hf & Hi).
  simpl in Hp. injection Hp as <- <-.
  simpl in Hf. injection Hf as <-.
  simpl in Hi. discriminate.
Qed.

Lemma py_index_in_range (len i : Z) :
  0 <= i < len -> py_index len i = Some (Z.to_nat i).
Proof.
  intros [H0 H1]. unfold py_index.
  apply Z.leb_le in H0. apply Z.ltb_lt in H1. rewrite H0, H1. reflexivity.
Qed.

Lemma focused_refocus (selected : synthmenu.Item)
    (sq sq' : synthmenu.Sequence) :
  focused selected = Some sq -> focused (refocus selected sq') = Some sq'.
Proof.
  destruct selected as [|c|q]; simpl; try discriminate; reflexivity.
Qed.

(** C6, amended: when [settings.keyboard_touch] is on and the selection
    is pattern-edit focused (a sequence with [0 < length <= len(items)]),
    a touch press on position [p] negates the step at [p mod length] of
    the focused sequence, leaves every other step and the length as they
    were, redraws the menu and emits neither MIDI nor a voice press or
    release; when touch is off or the selection is not pattern-edit
    focused, the press changes nothing and emits nothing. *)
Theorem touch_press_toggles_focused_step (s : Settings)
    (selected : synthmenu.Item) (p : Z) :
  ((keyboard_touch s = false \/ focused selected = None) ->
   ttp_press s selected p = Some (selected, []))
  /\
  (forall sq,
     keyboard_touch s = true ->
     focused selected = Some sq ->
     0 < synthmenu.length sq <= Z.of_nat (length (synthmenu.items sq)) ->
     let i := Z.to_nat (p mod synthmenu.length sq) in
     exists step selected' sq' tr,
       synthmenu.items sq !! i = Some step /\
       ttp_press s selected p = Some (selected', tr) /\
       focused selected' = Some sq' /\
       synthmenu.length sq' = synthmenu.length sq /\
       length (synthmenu.items sq') = length (synthmenu.items sq) /\
       synthmenu.items sq' !! i = Some (negb step) /\
       (forall j, j <> i ->
          synthmenu.items sq' !! j = synthmenu.items sq !! j) /\
       tr = [MenuDraw] /\
       midi_sends tr = [] /\ voice_events tr = []).
Proof.
  split.
  - intros [Hk|Hf]; unfold ttp_press.
    + rewrite Hk. reflexivity.
    + rewrite Hf. destruct (negb (keyboard_touch s)); reflexivity.
  - intros sq Hk Hf Hlen i.
    assert (Hm : 0 <= p mod synthmenu.length sq < synthmenu.length sq)
      by (apply Z.mod_pos_bound; lia).
    assert (Hi : (i < length (synthmenu.items sq))%nat) by (unfold i; lia).
    destruct (lookup_lt_is_Some_2 _ _ Hi) as [step Hstep].
    exists step, (refocus selected (toggle sq i step)), (toggle sq i step),
      [MenuDraw].
    split; [exact Hstep|]. split; [|split; [|split; [|split; [|split]]]].
    + unfold ttp_press. rewrite Hk, Hf. simpl.
      assert (E : (synthmenu.length sq =? 0) = false)
        by (apply Z.eqb_neq; lia).
      rewrite E, py_index_in_range by lia. simpl. fold i.
      rewrite Hstep. reflexivity.
    + apply (focused_refocus _ _ _ Hf).
    + reflexivity.
    + apply length_insert.
    + simpl. apply list_lookup_insert_eq. exact Hi.
    + split; [|repeat split].
      intros j Hj. simpl. apply list_lookup_insert_ne. congruence.
Qed.

Lemma touch_press_toggles_focused_step_witness :
  let s := {| midi_thru := true; midi_channel := None;
              keyboard_touch := true |} in
  let sq := {| synthmenu.items := [false; true; false; false];
               synthmenu.length := 4 |} in
  exists step selected' sq' tr,
    synthmenu.items sq !! 2%nat = Some step /\
    ttp_press s (synthmenu.Group (synthmenu.Seq sq)) 6 = Some (selected', tr) /\
    focused selected' = Some sq' /\
    synthmenu.length sq' = 4 /\
    length (synthmenu.items sq') = 4%nat /\
    synthmenu.items sq' !! 2%nat = Some (negb step) /\
    (forall j, j <> 2%nat ->
       synthmenu.items sq' !! j = synthmenu.items sq !! j) /\
    tr = [MenuDraw] /\
    midi_sends tr = [] /\ voice_events tr = [].
Proof.
  apply (proj2 (touch_press_toggles_focused_step
                  {| midi_thru := true; midi_channel := None;
                     keyboard_touch := true |}
                  (synthmenu.Group
                     (synthmenu.Seq
                        {| synthmenu.items := [false; true; false; false];
                           synthmenu.length := 4 |})) 6)
               {| synthmenu.items := [false; true; false; false];
                  synthmenu.length := 4 |});
    [reflexivity | reflexivity | simpl; lia].
Defined.

(** ** Grid editor *)

Section Store.

Import sequencer.

Implicit Types g : list (list (option Z)).

Lemma cell_put_eq g p t v :
  is_Some (cell g p t) -> cell (put g p t v) p t = Some v.
Proof.
  unfold cell, put. destruct ((t <? 0) || (p <? 0)) eqn:E.
  - intros [x Hx]. discriminate.
  - destruct (g !! Z.to_nat t) as [row|] eqn:Hrow; simpl.
    + intros Hc. rewrite list_lookup_insert_eq
        by (apply lookup_lt_is_Some; eauto).
      simpl. apply list_lookup_insert_eq, lookup_lt_is_Some. exact Hc.
    + intros [x Hx]. discriminate.
Qed.

Lemma cell_put_ne g p t v p' t' :
  p' <> p \/ t' <> t -> cell (put g p t v) p' t' = cell g p' t'.
Proof.
  intros Hne. unfold cell, put.
  destruct ((t' <? 0) || (p' <? 0)) eqn:E'; [reflexivity|].
  destruct ((t <? 0) || (p <? 0)) eqn:E; [reflexivity|].
  destruct (g !! Z.to_nat t) as [row|] eqn:Hrow; [|reflexivity].
  apply orb_false_iff in E as [Et Ep], E' as [Et' Ep'].
  apply Z.ltb_ge in Et, Ep, Et', Ep'.
  destruct (decide (t' = t)) as [->|Ht].
  - rewrite list_lookup_insert_eq by (apply lookup_lt_is_Some; eauto).
    rewrite Hrow. simpl. apply list_lookup_insert_ne.
    destruct Hne as [Hp|Ht]; [lia|congruence].
  - rewrite list_lookup_insert_ne by lia. reflexivity.
Qed.

Lemma cell_put_is_Some g p t v p' t' :
  is_Some (cell g p' t') -> is_Some (cell (put g p t v) p' t').
Proof.
  intros H. destruct (decide (p' = p)) as [->|Hp].
  - destruct (decide (t' = t)) as [->|Ht].
    + rewrite cell_put_eq by exact H. eauto.
    + rewrite cell_put_ne by auto. exact H.
  - rewrite cell_put_ne by auto. exact H.
Qed.

Lemma has_note_put_ne g p t v p' t' :
  p' <> p \/ t' <> t -> has_note (put g p t v) p' t' = has_note g p' t'.
Proof. intros H. unfold has_note. rewrite cell_put_ne by exact H. reflexivity. Qed.

Lemma tracks_put g p t v : tracks (put g p t v) = tracks g.
Proof.
  unfold tracks, put. destruct (_ || _); [reflexivity|].
  destruct (g !! Z.to_nat t); [|reflexivity].
  rewrite length_insert. reflexivity.
Qed.

End Store.

Section Loop.

Import sequencer.

Implicit Types g : list (list (option Z)).

Variable track : Z.

Lemma has_note_is_Some g p :
  is_Some (cell g p track) -> is_Some (has_note g p track).
Proof. intros [c Hc]. unfold has_note. rewrite Hc. simpl. eauto. Qed.

(** One turn of the loop: the store after it, and the rest of the
    loop run from there. *)
Lemma track_loop_cons g i state rest :
  is_Some (cell g i track) ->
  exists g1,
    track_loop g track i (state :: rest)
    = (r ← track_loop g1 track (i + 1) rest;
       Some (r.1, cell_calls g track i state ++ r.2))
    /\ (forall p t, p <> i \/ t <> track -> cell g1 p t = cell g p t)
    /\ has_note g1 i track = Some state
    /\ (has_note g i track = Some state ->
        cell g1 i track = cell g i track).
Proof.
  intros Hin. destruct (has_note_is_Some _ _ Hin) as [present Hp].
  destruct state.
  - destruct present.
    + exists g. cbn [track_loop]. rewrite Hp. simpl. unfold cell_calls. rewrite Hp.
      split; [|split; [|split]]; auto.
      destruct (track_loop g track (i + 1) rest) as [[g' cs]|];
        reflexivity.
    + exists (set_note g i (track + 1) track). cbn [track_loop]. rewrite Hp. simpl.
      unfold cell_calls. rewrite Hp.
      split; [reflexivity|]. split; [|split].
      * intros p t Hne. apply cell_put_ne. exact Hne.
      * unfold has_note, set_note. rewrite cell_put_eq by exact Hin.
        reflexivity.
      * discriminate.
  - exists (remove_note g i track). cbn [track_loop].
    split; [reflexivity|]. split; [|split].
    + intros p t Hne. apply cell_put_ne. exact Hne.
    + unfold has_note, remove_note. rewrite cell_put_eq by exact Hin.
      reflexivity.
    + intros Hh. unfold remove_note. rewrite cell_put_eq by exact Hin.
      unfold has_note in Hh. destruct Hin as [c Hc]. rewrite Hc in Hh |- *.
      simpl in Hh. destruct c as [n|]; [|reflexivity].
      rewrite bool_decide_eq_true_2 in Hh by eauto. discriminate.
Qed.

Lemma cell_calls_position g p state c :
  c ∈ cell_calls g track p state ->
  call_track c = track /\ call_position c = p.
Proof.
  unfold cell_calls. destruct state.
  - destruct (has_note g p track) as [[|]|]; intros Hc;
      try (apply elem_of_nil in Hc; contradiction).
    apply list_elem_of_singleton in Hc. subst. auto.
  - intros Hc. apply list_elem_of_singleton in Hc. subst. auto.
Qed.

Lemma calls_at_none p calls :
  (forall c, c ∈ calls -> call_position c <> p) -> calls_at p calls = [].
Proof.
  intros H. induction calls as [|c cs IH]; [reflexivity|].
  unfold calls_at in *. simpl.
  assert (E : (call_position c =? p) = false).
  { apply Z.eqb_neq, H, list_elem_of_here. }
  rewrite E. apply IH. intros c' Hc'. apply H, list_elem_of_further, Hc'.
Qed.

Lemma calls_at_all p calls :
  (forall c, c ∈ calls -> call_position c = p) -> calls_at p calls = calls.
Proof.
  intros H. induction calls as [|c cs IH]; [reflexivity|].
  unfold calls_at in *. simpl.
  assert (E : (call_position c =? p) = true).
  { apply Z.eqb_eq, H, list_elem_of_here. }
  rewrite E. f_equal. apply IH.
  intros c' Hc'. apply H, list_elem_of_further, Hc'.
Qed.

Lemma calls_at_app p a b :
  calls_at p (a ++ b) = calls_at p a ++ calls_at p b.
Proof. apply List.filter_app. Qed.

Lemma cell_calls_ext g g1 p state :
  has_note g1 p track = has_note g p track ->
  cell_calls g1 track p state = cell_calls g track p state.
Proof. intros H. unfold cell_calls. rewrite H. reflexivity. Qed.

(** The loop from index [i] on, over cells that all lie in the grid. *)
Lemma track_loop_spec value : forall g i,
  (forall j, (j < length value)%nat ->
     is_Some (cell g (i + Z.of_nat j) track)) ->
  exists g' calls,
    track_loop g track i value = Some (g', calls)
    /\ (forall c, c ∈ calls ->
          call_track c = track /\
          i <= call_position c < i + Z.of_nat (length value))
    /\ (forall p t,
          t <> track \/ p < i \/ i + Z.of_nat (length value) <= p ->
          cell g' p t = cell g p t)
    /\ (forall j state, value !! j = Some state ->
          let p := i + Z.of_nat j in
          calls_at p calls = cell_calls g track p state
          /\ has_note g' p track = Some state
          /\ (has_note g p track = Some state ->
              cell g' p track = cell g p track)).
Proof.
  induction value as [|state rest IH]; intros g i Hin.
  - exists g, []. split; [reflexivity|]. split; [|split].
    + intros c Hc. apply elem_of_nil in Hc. contradiction.
    + reflexivity.
    + intros j st Hj. discriminate.
  - assert (Hin0 : is_Some (cell g i track)).
    { specialize (Hin 0%nat). rewrite Z.add_0_r in Hin.
      apply Hin. simpl. lia. }
    destruct (track_loop_cons g i state rest Hin0)
      as (g1 & Heq & Hframe1 & Hhas1 & Hkeep1).
    destruct (IH g1 (i + 1)) as (g' & calls & Hrun & Hpos & Hframe & Hcells).
    { intros j Hj. rewrite Hframe1 by (left; lia).
      replace (i + 1 + Z.of_nat j) with (i + Z.of_nat (S j)) by lia.
      apply Hin. simpl. lia. }
    exists g', (cell_calls g track i state ++ calls).
    split; [rewrite Heq, Hrun; reflexivity|]. split; [|split].
    + intros c Hc. apply elem_of_app in Hc as [Hc|Hc].
      * apply cell_calls_position in Hc as [Ht Hp].
        split; [exact Ht|]. simpl length. lia.
      * apply Hpos in Hc as [Ht Hp]. split; [exact Ht|].
        simpl length. lia.
    + intros p t Hpt. simpl length in Hpt.
      rewrite Hframe by lia. apply Hframe1. lia.
    + intros [|j] st Hj p; simpl in Hj.
      * injection Hj as <-. unfold p. rewrite Z.add_0_r.
        rewrite calls_at_app.
        rewrite (calls_at_all i (cell_calls g track i state))
          by (intros c Hc; apply (cell_calls_position _ _ _ _ Hc)).
        rewrite (calls_at_none i calls), app_nil_r
          by (intros c Hc; apply Hpos in Hc; lia).
        split; [reflexivity|].
        unfold has_note. rewrite Hframe by lia.
        split; [exact Hhas1|]. exact Hkeep1.
      * destruct (Hcells j st Hj) as (Hc1 & Hc2 & Hc3).
        replace (i + 1 + Z.of_nat j) with p in Hc1, Hc2, Hc3
          by (unfold p; lia).
        assert (Hpi : p <> i) by (unfold p; lia).
        assert (Hsame : has_note g1 p track = has_note g p track).
        { unfold has_note. rewrite Hframe1 by auto. reflexivity. }
        rewrite calls_at_app.
        rewrite (calls_at_none p (cell_calls g track i state))
          by (intros c Hc; apply cell_calls_position in Hc; lia).
        rewrite Hc1, (cell_calls_ext _ _ _ _ Hsame).
        split; [reflexivity|]. split; [exact Hc2|].
        intros Hh. rewrite Hc3 by (rewrite Hsame; exact Hh).
        apply Hframe1. auto.
Qed.

End Loop.

(** C7, as stated, fails: on an empty one-cell track, the vector
    [(False,)] changes nothing and yet [remove_note] is called. *)
Lemma unchanged_empty_cell_gets_remove :
  update_sequencer_track [[None]] 0 [false]
  = Some ([[None]], [RemoveNote 0 0])
  /\ ~ calls_only_for_changes [[None]] 0 [false].
Proof.
  split; [reflexivity|]. intros H.
  specialize (H [[None]] [RemoveNote 0 0] eq_refl 0%nat false false
                eq_refl eq_refl).
  discriminate H.
Qed.

(** The guard of [update_sequencer_track] lets [track == sequencer.tracks]
    through; [has_note] then fails on the first true cell. *)
Example guard_admits_track_count :
  update_sequencer_track [[None]] 1 [true] = None /\
  update_sequencer_track [[None]] 2 [true] = Some ([[None]], []).
Proof. split; reflexivity. Qed.

(** C7, amended: for a valid track and a vector whose cells lie in the
    grid, the update returns, and for each cell of the vector: a true
    cell without a note gets exactly one [set_note] with
    [notenum = track + 1], a true cell with a note gets no call, and a
    false cell gets exactly one [remove_note], whether or not it held a
    note.  So each changed cell gets exactly one call; afterwards the
    presence of a note equals the vector's boolean, a cell whose boolean
    did not change keeps its content, and no call or change touches any
    other cell. *)
Theorem grid_update_calls (g : list (list (option Z))) (track : Z)
    (value : list bool) :
  0 <= track < sequencer.tracks g ->
  (forall j, (j < length value)%nat ->
     is_Some (sequencer.cell g (Z.of_nat j) track)) ->
  exists g' calls,
    update_sequencer_track g track value = Some (g', calls)
    /\ (forall c, c ∈ calls ->
          call_track c = track /\
          0 <= call_position c < Z.of_nat (length value))
    /\ (forall p t,
          t <> track \/ p < 0 \/ Z.of_nat (length value) <= p ->
          sequencer.cell g' p t = sequencer.cell g p t)
    /\ (forall (j : nat) (state : bool), value !! j = Some state ->
          let p := Z.of_nat j in
          calls_at p calls
          = (if state then
               match sequencer.has_note g p track with
               | Some false => [SetNote p (track + 1) track]
               | _ => []
               end
             else [RemoveNote p track])
          /\ sequencer.has_note g' p track = Some state
          /\ (sequencer.has_note g p track = Some state ->
              sequencer.cell g' p track = sequencer.cell g p track)
          /\ (sequencer.has_note g p track <> Some state ->
              length (calls_at p calls) = 1%nat)).
Proof.
  intros Htrack Hin.
  destruct (track_loop_spec track value g 0) as (g' & calls & Hrun & Hpos & Hframe & Hcells).
  { intros j Hj. rewrite Z.add_0_l. apply Hin, Hj. }
  exists g', calls. split; [|split; [|split]].
  - unfold update_sequencer_track.
    assert (E : (sequencer.tracks g <? track) || (track <? 0) = false).
    { apply orb_false_iff. split; apply Z.ltb_ge; lia. }
    rewrite E. exact Hrun.
  - exact Hpos.
  - exact Hframe.
  - intros j state Hj p.
    destruct (Hcells j state Hj) as (Hc1 & Hc2 & Hc3).
    rewrite Z.add_0_l in Hc1, Hc2, Hc3. fold p in Hc1, Hc2, Hc3.
    split; [exact Hc1|]. split; [exact Hc2|]. split; [exact Hc3|].
    intros Hne. rewrite Hc1. unfold cell_calls.
    destruct state; [|reflexivity].
    assert (Hs : is_Some (sequencer.has_note g p track)).
    { apply has_note_is_Some, Hin. apply lookup_lt_is_Some. eauto. }
    destruct Hs as [[|] Hh]; rewrite Hh in Hne |- *;
      [congruence|reflexivity].
Qed.

Lemma grid_update_calls_witness :
  exists g' calls,
    update_sequencer_track
      [[Some 1; None; Some 1]; [None; None; None]] 0 [true; true; false]
    = Some (g', calls)
    /\ calls_at 0 calls = []
    /\ calls_at 1 calls = [SetNote 1 1 0]
    /\ calls_at 2 calls = [RemoveNote 2 0].
Proof.
  destruct (grid_update_calls
              [[Some 1; None; Some 1]; [None; None; None]] 0
              [true; true; false]) as (g' & calls & Hrun & _ & _ & Hc).
  - vm_compute. split; [discriminate | reflexivity].
  - intros j Hj. simpl in Hj.
    destruct j as [|[|[|j]]]; try (simpl; eauto); lia.
  - exists g', calls. split; [exact Hrun|].
    split; [|split].
    + exact (proj1 (Hc 0%nat true eq_refl)).
    + exact (proj1 (Hc 1%nat true eq_refl)).
    + exact (proj1 (Hc 2%nat false eq_refl)).
Defined.

(** ** Bounded polling *)

Lemma midi_process_messages_spec (s : Settings)
    (midi : list (option MIDIMessage)) : forall k : nat,
  exists msgs,
    drained k midi (midi_process_messages s (Z.of_nat k) midi).1 msgs
    /\ (midi_process_messages s (Z.of_nat k) midi).2
       = List.flat_map (midi_process_message s) msgs.
Proof.
  induction midi as [|[msg|] rest IH]; intros [|k].
  - exists []. repeat split; simpl; auto.
  - exists []. split; [|reflexivity].
    split; [simpl; lia|]. right. right. simpl. split; [lia|auto].
  - exists []. repeat split; simpl; auto.
  - destruct (IH k) as (msgs & (Hlen & Hcase) & Htr).
    exists (msg :: msgs).
    assert (E : midi_process_messages s (Z.of_nat (S k)) (Some msg :: rest)
                = ((midi_process_messages s (Z.of_nat k) rest).1,
                   midi_process_message s msg
                   ++ (midi_process_messages s (Z.of_nat k) rest).2)).
    { cbn [midi_process_messages].
      assert (E0 : (Z.of_nat (S k) =? 0) = false) by (apply Z.eqb_neq; lia).
      rewrite E0. replace (Z.of_nat (S k) - 1) with (Z.of_nat k) by lia.
      reflexivity. }
    rewrite E. cbn [fst snd]. split.
    + split; [simpl; lia|].
      destruct Hcase as [[Hl Hb]|[[Hl Hb]|[Hl [Hb Ha]]]].
      * left. split; [simpl; lia|]. rewrite Hb at 1. reflexivity.
      * right. left. split; [simpl; lia|]. rewrite Hb at 1. reflexivity.
      * right. right. split; [simpl; lia|]. rewrite Hb at 1. auto.
    + simpl. rewrite Htr. reflexivity.
  - exists []. repeat split; simpl; auto.
  - exists []. split; [|reflexivity].
    split; [simpl; lia|]. right. left. simpl. split; [lia|reflexivity].
Qed.

(** C8: a call of [midi_process_messages] with the default bound
    receives and processes at most 32 messages, stops at the first
    [receive()] that returns nothing, and leaves what lies beyond the
    bound on the transport; one pass of [midi_task] does so for USB and
    then for UART. *)
Theorem midi_drain_bounded (s : Settings) (hw : Hardware) :
  default_limit = 32
  /\ (forall midi, exists msgs,
        drained 32 midi (midi_process_messages s default_limit midi).1 msgs
        /\ (midi_process_messages s default_limit midi).2
           = List.flat_map (midi_process_message s) msgs)
  /\ (exists usb_msgs uart_msgs,
        drained 32 (midi_usb hw) (midi_usb (midi_task_pass s hw).1) usb_msgs
        /\ drained 32 (midi_uart hw) (midi_uart (midi_task_pass s hw).1)
             uart_msgs
        /\ (midi_task_pass s hw).2
           = List.flat_map (midi_process_message s) usb_msgs
             ++ List.flat_map (midi_process_message s) uart_msgs).
Proof.
  split; [reflexivity|]. split.
  - intros midi. apply (midi_process_messages_spec s midi 32).
  - destruct (midi_process_messages_spec s (midi_usb hw) 32)
      as (mu & Hdu & Htu).
    destruct (midi_process_messages_spec s (midi_uart hw) 32)
      as (ma & Hda & Hta).
    exists mu, ma. unfold midi_task_pass. cbn [fst snd midi_usb midi_uart].
    split; [exact Hdu|]. split; [exact Hda|].
    change default_limit with (Z.of_nat 32).
    rewrite Htu, Hta. reflexivity.
Qed.

(** Thirty-four messages are waiting: thirty-two are processed and the
    last two are left for the next pass. *)
Example drain_leaves_the_rest :
  let s := {| midi_thru := false; midi_channel := None;
              keyboard_touch := true |} in
  midi_process_messages s default_limit
    (replicate 33 (Some (NoteOff 1 0 None)) ++ [Some (NoteOn 2 64 None)])
  = ([Some (NoteOff 1 0 None); Some (NoteOn 2 64 None)],
     replicate 32 (VoiceRelease 0)).
Proof. reflexivity. Qed.

(** The drain stops at the first empty [receive()]. *)
Example drain_stops_when_empty :
  let s := {| midi_thru := false; midi_channel := None;
              keyboard_touch := true |} in
  midi_process_messages s default_limit
    [Some (NoteOff 1 0 None); None; Some (NoteOff 2 0 None)]
  = ([Some (NoteOff 2 0 None)], [VoiceRelease 0]).
Proof. reflexivity. Qed.

(** * Further properties *)

(** ** MIDI input, message by message *)

Lemma thru_echo_length (s : Settings) (msg : MIDIMessage) :
  (length (thru_echo s msg) <= 2)%nat.
Proof. unfold thru_echo. destruct (_ && _); simpl; lia. Qed.

Lemma midi_voice_events_length (s : Settings) (msg : MIDIMessage) :
  (length (voice_events (midi_process_message s msg)) <= 1)%nat.
Proof.
  destruct (channel_rejected s msg) eqn:Hc.
  - rewrite (midi_rejected_no_voice _ _ Hc). simpl. lia.
  - rewrite (midi_voice_events _ _ Hc).
    destruct msg as [n v c|n v c|c|st]; simpl; try lia.
    destruct (0 <? v); simpl; lia.
Qed.

Lemma midi_sends_length (s : Settings) (msg : MIDIMessage) :
  (length (midi_sends (midi_process_message s msg)) <= 2)%nat.
Proof. rewrite midi_input_sends. apply thru_echo_length. Qed.

(** X1: one incoming message causes at most one call on a voice and at
    most two sends, and never a redraw of the menu; a message that is
    neither a Note-On nor a Note-Off reaches no voice, whatever the
    settings. *)
Theorem midi_message_effect_bounds (s : Settings) (msg : MIDIMessage) :
  (length (voice_events (midi_process_message s msg)) <= 1)%nat
  /\ (length (midi_sends (midi_process_message s msg)) <= 2)%nat
  /\ (MenuDraw ∉ midi_process_message s msg)
  /\ match msg with
     | NoteOn _ _ _ | NoteOff _ _ _ => True
     | _ => voice_events (midi_process_message s msg) = []
     end.
Proof.
  split; [apply midi_voice_events_length|].
  split; [apply midi_sends_length|]. split.
  - unfold midi_process_message. intros Hin.
    apply elem_of_app in Hin as [Hin|Hin].
    + destruct (_ && _).
      * repeat (apply elem_of_cons in Hin as [Hin|Hin]; [discriminate|]).
        apply elem_of_nil in Hin. contradiction.
      * apply elem_of_nil in Hin. contradiction.
    + destruct (channel_rejected s msg);
        [apply elem_of_nil in Hin; contradiction|].
      destruct msg as [n v c|n v c|c|st];
        try (apply elem_of_nil in Hin; contradiction);
        try (destruct (0 <? v));
        apply list_elem_of_singleton in Hin; discriminate.
  - destruct msg as [n v c|n v c|c|st]; try exact I.
    + destruct (channel_rejected s (MIDIOther c)) eqn:Hc.
      * apply (midi_rejected_no_voice _ _ Hc).
      * apply (midi_voice_events _ _ Hc).
    + destruct (channel_rejected s (MIDIUnknownEvent st)) eqn:Hc.
      * apply (midi_rejected_no_voice _ _ Hc).
      * apply (midi_voice_events _ _ Hc).
Qed.

Lemma channel_rejected_ext (s s' : Settings) (msg : MIDIMessage) :
  midi_channel s = midi_channel s' ->
  channel_rejected s msg = channel_rejected s' msg.
Proof. intros H. unfold channel_rejected. rewrite H. reflexivity. Qed.

(** X2: the calls on voices depend on the configured channel only, not
    on the thru flag; the sends depend on the thru flag only, not on the
    configured channel: a message the filter rejects is echoed all the
    same. *)
Theorem midi_thru_and_filter_independent (s s' : Settings)
    (msg : MIDIMessage) :
  (midi_channel s = midi_channel s' ->
   voice_events (midi_process_message s msg)
   = voice_events (midi_process_message s' msg))
  /\
  (midi_thru s = midi_thru s' ->
   midi_sends (midi_process_message s msg)
   = midi_sends (midi_process_message s' msg)).
Proof.
  split.
  - intros Hch. pose proof (channel_rejected_ext s s' msg Hch) as Hr.
    destruct (channel_rejected s msg) eqn:Hc.
    + rewrite (midi_rejected_no_voice _ _ Hc).
      symmetry. apply midi_rejected_no_voice. congruence.
    + rewrite (midi_voice_events _ _ Hc).
      symmetry. apply midi_voice_events. congruence.
  - intros Ht. rewrite !midi_input_sends. unfold thru_echo.
    rewrite Ht. reflexivity.
Qed.

Lemma midi_thru_and_filter_independent_witness :
  voice_events
    (midi_process_message
       {| midi_thru := true; midi_channel := Some 3; keyboard_touch := true |}
       (NoteOn 5 90 (Some 3)))
  = voice_events
      (midi_process_message
         {| midi_thru := false; midi_channel := Some 3;
            keyboard_touch := false |}
         (NoteOn 5 90 (Some 3))).
Proof.
  apply (proj1 (midi_thru_and_filter_independent
                  {| midi_thru := true; midi_channel := Some 3;
                     keyboard_touch := true |}
                  {| midi_thru := false; midi_channel := Some 3;
                     keyboard_touch := false |}
                  (NoteOn 5 90 (Some 3)))).
  reflexivity.
Defined.

(** ** MIDI input, pass by pass *)

Lemma flat_map_voice_length (s : Settings) (msgs : list MIDIMessage) :
  (length (voice_events (List.flat_map (midi_process_message s) msgs))
   <= length msgs)%nat.
Proof.
  induction msgs as [|m ms IH]; [simpl; lia|].
  simpl. rewrite voice_events_app, length_app.
  pose proof (midi_voice_events_length s m). lia.
Qed.

Lemma flat_map_sends_length (s : Settings) (msgs : list MIDIMessage) :
  (length (midi_sends (List.flat_map (midi_process_message s) msgs))
   <= 2 * length msgs)%nat.
Proof.
  induction msgs as [|m ms IH]; [simpl; lia|].
  simpl. rewrite midi_sends_app, length_app.
  pose proof (midi_sends_length s m). lia.
Qed.

(** X3: one pass of [midi_task] makes at most 64 calls on voices and at
    most 128 sends, however many messages are waiting. *)
Theorem midi_pass_work_bounded (s : Settings) (hw : Hardware) :
  (length (voice_events (midi_task_pass s hw).2) <= 64)%nat
  /\ (length (midi_sends (midi_task_pass s hw).2) <= 128)%nat.
Proof.
  destruct (midi_process_messages_spec s (midi_usb hw) 32)
    as (mu & (Hlu & _) & Htu).
  destruct (midi_process_messages_spec s (midi_uart hw) 32)
    as (ma & (Hla & _) & Hta).
  unfold midi_task_pass. cbn [fst snd].
  change default_limit with (Z.of_nat 32). rewrite Htu, Hta.
  rewrite voice_events_app, midi_sends_app, !length_app.
  pose proof (flat_map_voice_length s mu).
  pose proof (flat_map_voice_length s ma).
  pose proof (flat_map_sends_length s mu).
  pose proof (flat_map_sends_length s ma).
  lia.
Qed.

(** X4: a negative [limit] never counts down to zero: the drain is then
    bounded by the transport alone and processes every message up to the
    first [receive()] that returns nothing. *)
Theorem midi_drain_negative_limit (s : Settings) (limit : Z)
    (midi : list (option MIDIMessage)) :
  limit < 0 ->
  exists msgs,
    (midi_process_messages s limit midi).2
    = List.flat_map (midi_process_message s) msgs
    /\ (midi = (Some <$> msgs)
               ++ None :: (midi_process_messages s limit midi).1
        \/ (midi = Some <$> msgs /\
            (midi_process_messages s limit midi).1 = [])).
Proof.
  revert limit. induction midi as [|[msg|] rest IH]; intros limit Hneg;
    assert (E : (limit =? 0) = false) by (apply Z.eqb_neq; lia).
  - exists []. cbn [midi_process_messages]. rewrite E. simpl. auto.
  - destruct (IH (limit - 1)) as (msgs & Htr & Hcase); [lia|].
    exists (msg :: msgs). cbn [midi_process_messages]. rewrite E.
    cbn [fst snd]. split.
    + simpl. rewrite Htr. reflexivity.
    + destruct Hcase as [Hb|[Hb Ha]].
      * left. rewrite Hb at 1. reflexivity.
      * right. rewrite Hb at 1. auto.
  - exists []. cbn [midi_process_messages]. rewrite E. simpl. auto.
Qed.

Lemma midi_drain_negative_limit_witness :
  let s := {| midi_thru := false; midi_channel := None;
              keyboard_touch := true |} in
  exists msgs,
    (midi_process_messages s (-1) (replicate 40 (Some (NoteOff 1 0 None)))).2
    = List.flat_map (midi_process_message s) msgs
    /\ (replicate 40 (Some (NoteOff 1 0 None))
        = (Some <$> msgs)
          ++ None :: (midi_process_messages s (-1)
                        (replicate 40 (Some (NoteOff 1 0 None)))).1
        \/ (replicate 40 (Some (NoteOff 1 0 None)) = Some <$> msgs /\
            (midi_process_messages s (-1)
               (replicate 40 (Some (NoteOff 1 0 None)))).1 = [])).
Proof.
  apply (midi_drain_negative_limit
           {| midi_thru := false; midi_channel := None;
              keyboard_touch := true |} (-1)
           (replicate 40 (Some (NoteOff 1 0 None)))).
  lia.
Defined.

Lemma pending_somes (msgs : list MIDIMessage) :
  pending (Some <$> msgs) = msgs.
Proof.
  unfold pending. induction msgs as [|m ms IH]; [reflexivity|].
  simpl. f_equal. exact IH.
Qed.

Lemma pending_app (a b : list (option MIDIMessage)) :
  pending (a ++ b) = pending a ++ pending b.
Proof. apply omap_app. Qed.

(** What a drain processed and what it left make up what was pending. *)
Lemma drained_pending (k : nat) (before after : list (option MIDIMessage))
    (msgs : list MIDIMessage) :
  drained k before after msgs -> pending before = msgs ++ pending after.
Proof.
  intros [_ [[_ Hb]|[[_ Hb]|[_ [Hb Ha]]]]]; subst.
  - rewrite pending_app, pending_somes. reflexivity.
  - rewrite pending_app, pending_somes. reflexivity.
  - rewrite pending_somes, app_nil_r. reflexivity.
Qed.

(** A drain with a positive bound uses up at least one [receive()]
    result, unless there is none. *)
Lemma drained_progress (k : nat) (before after : list (option MIDIMessage))
    (msgs : list MIDIMessage) :
  drained (S k) before after msgs ->
  (length after <= length before - 1)%nat.
Proof.
  intros [_ [[Hl Hb]|[[_ Hb]|[_ [Hb Ha]]]]]; subst.
  - rewrite length_app, length_fmap. lia.
  - rewrite length_app. simpl. lia.
  - simpl. lia.
Qed.

(** One pass, transport by transport. *)
Lemma midi_task_pass_spec (s : Settings) (hw : Hardware) :
  exists mu ma,
    drained 32 (midi_usb hw) (midi_usb (midi_task_pass s hw).1) mu
    /\ drained 32 (midi_uart hw) (midi_uart (midi_task_pass s hw).1) ma
    /\ (midi_task_pass s hw).2
       = List.flat_map (midi_process_message s) mu
         ++ List.flat_map (midi_process_message s) ma.
Proof.
  destruct (midi_process_messages_spec s (midi_usb hw) 32)
    as (mu & Hdu & Htu).
  destruct (midi_process_messages_spec s (midi_uart hw) 32)
    as (ma & Hda & Hta).
  exists mu, ma. unfold midi_task_pass. cbn [fst snd midi_usb midi_uart].
  split; [exact Hdu|]. split; [exact Hda|].
  change default_limit with (Z.of_nat 32). rewrite Htu, Hta. reflexivity.
Qed.

Lemma midi_task_batches (s : Settings) (n : nat) : forall hw,
  exists usb_batches uart_batches : list (list MIDIMessage),
    length usb_batches = n /\ length uart_batches = n
    /\ Forall (fun b => (length b <= 32)%nat) usb_batches
    /\ Forall (fun b => (length b <= 32)%nat) uart_batches
    /\ pending (midi_usb hw)
       = concat usb_batches ++ pending (midi_usb (midi_task n s hw).1)
    /\ pending (midi_uart hw)
       = concat uart_batches ++ pending (midi_uart (midi_task n s hw).1)
    /\ (midi_task n s hw).2 = batches_trace s usb_batches uart_batches.
Proof.
  induction n as [|n IH]; intros hw.
  - exists [], []. simpl. repeat split; auto.
  - destruct (midi_task_pass_spec s hw) as (mu & ma & Hdu & Hda & Htr).
    destruct (IH (midi_task_pass s hw).1)
      as (ub & ab & Hlu & Hla & Hfu & Hfa & Hpu & Hpa & Htr').
    exists (mu :: ub), (ma :: ab). cbn [midi_task fst snd].
    split; [simpl; lia|]. split; [simpl; lia|].
    split; [constructor; [apply Hdu|exact Hfu]|].
    split; [constructor; [apply Hda|exact Hfa]|].
    split; [|split].
    + rewrite (drained_pending _ _ _ _ Hdu), Hpu. simpl.
      rewrite app_assoc. reflexivity.
    + rewrite (drained_pending _ _ _ _ Hda), Hpa. simpl.
      rewrite app_assoc. reflexivity.
    + rewrite Htr, Htr'. reflexivity.
Qed.

Lemma midi_task_lengths (s : Settings) (n : nat) : forall hw,
  (length (midi_usb (midi_task n s hw).1) <= length (midi_usb hw) - n)%nat
  /\ (length (midi_uart (midi_task n s hw).1)
      <= length (midi_uart hw) - n)%nat.
Proof.
  induction n as [|n IH]; intros hw.
  - simpl. lia.
  - destruct (midi_task_pass_spec s hw) as (mu & ma & Hdu & Hda & _).
    apply drained_progress in Hdu, Hda.
    destruct (IH (midi_task_pass s hw).1) as [Hu Ha].
    cbn [midi_task fst snd]. lia.
Qed.

(** X5: over [n] passes of [midi_task], each transport's messages are
    processed in the order they arrive, none lost and none twice, in
    batches of at most 32, the USB batch of a pass before its UART
    batch; once there have been as many passes as [receive()] results
    outstanding, both transports are used up and every message has been
    processed. *)
Theorem midi_task_loses_no_message (s : Settings) (n : nat)
    (hw : Hardware) :
  exists usb_batches uart_batches : list (list MIDIMessage),
    length usb_batches = n /\ length uart_batches = n
    /\ Forall (fun b => (length b <= 32)%nat) usb_batches
    /\ Forall (fun b => (length b <= 32)%nat) uart_batches
    /\ pending (midi_usb hw)
       = concat usb_batches ++ pending (midi_usb (midi_task n s hw).1)
    /\ pending (midi_uart hw)
       = concat uart_batches ++ pending (midi_uart (midi_task n s hw).1)
    /\ (midi_task n s hw).2 = batches_trace s usb_batches uart_batches
    /\ ((length (midi_usb hw) <= n)%nat ->
        (length (midi_uart hw) <= n)%nat ->
        (midi_task n s hw).1 = {| midi_usb := []; midi_uart := [] |}
        /\ concat usb_batches = pending (midi_usb hw)
        /\ concat uart_batches = pending (midi_uart hw)).
Proof.
  destruct (midi_task_batches s n hw)
    as (ub & ab & Hlu & Hla & Hfu & Hfa & Hpu & Hpa & Htr).
  exists ub, ab. repeat (split; [assumption|]).
  intros Hnu Hna. destruct (midi_task_lengths s n hw) as [Hu Ha].
  destruct (midi_task n s hw).1 as [u a] eqn:Hfin. cbn [midi_usb midi_uart] in *.
  assert (u = []) as -> by (apply length_zero_iff_nil; lia).
  assert (a = []) as -> by (apply length_zero_iff_nil; lia).
  split; [reflexivity|].
  rewrite Hpu, Hpa. simpl. rewrite !app_nil_r. auto.
Qed.

Lemma flat_map_nil_pending (s : Settings)
    (before after : list (option MIDIMessage)) (msgs : list MIDIMessage)
    (k : nat) :
  drained k before after msgs -> pending before = [] ->
  msgs = [] /\ pending after = [].
Proof.
  intros H Hp. apply drained_pending in H. rewrite Hp in H.
  symmetry in H. apply app_eq_nil in H. exact H.
Qed.

(** X6: while the UART delivers nothing, enough passes of [midi_task]
    process exactly the messages of the USB transport, each once and in
    order: bounding the drain delays messages and drops none. *)
Theorem midi_task_usb_only (s : Settings) (n : nat) (hw : Hardware) :
  pending (midi_uart hw) = [] ->
  (length (midi_usb hw) <= n)%nat ->
  (midi_task n s hw).2
  = List.flat_map (midi_process_message s) (pending (midi_usb hw)).
Proof.
  revert hw. induction n as [|n IH]; intros hw Hua Hlen.
  - assert (midi_usb hw = []) as -> by (apply length_zero_iff_nil; lia).
    reflexivity.
  - destruct (midi_task_pass_spec s hw) as (mu & ma & Hdu & Hda & Htr).
    destruct (flat_map_nil_pending s _ _ _ _ Hda Hua) as [-> Hua'].
    cbn [midi_task fst snd]. rewrite Htr. cbn [List.flat_map].
    rewrite app_nil_r.
    rewrite IH.
    + rewrite (drained_pending _ _ _ _ Hdu), List.flat_map_app.
      reflexivity.
    + exact Hua'.
    + apply drained_progress in Hdu. lia.
Qed.

Lemma midi_task_usb_only_witness :
  let s := {| midi_thru := false; midi_channel := None;
              keyboard_touch := true |} in
  let hw := {| midi_usb := replicate 40 (Some (NoteOff 1 0 None));
               midi_uart := [None; None] |} in
  (midi_task 40 s hw).2
  = List.flat_map (midi_process_message s) (pending (midi_usb hw)).
Proof.
  apply (midi_task_usb_only
           {| midi_thru := false; midi_channel := None;
              keyboard_touch := true |} 40
           {| midi_usb := replicate 40 (Some (NoteOff 1 0 None));
              midi_uart := [None; None] |});
    [reflexivity | simpl; lia].
Defined.

(** ** Touch editing, press after press *)

Lemma ttp_press_idle (s : Settings) (selected : synthmenu.Item) (p : Z) :
  keyboard_touch s = false \/ focused selected = None ->
  ttp_press s selected p = Some (selected, []).
Proof.
  intros [Hk|Hf]; unfold ttp_press.
  - rewrite Hk. reflexivity.
  - rewrite Hf. destruct (negb (keyboard_touch s)); reflexivity.
Qed.

Lemma ttp_press_focused (s : Settings) (selected : synthmenu.Item)
    (sq : synthmenu.Sequence) (p : Z) :
  keyboard_touch s = true -> focused selected = Some sq ->
  ttp_press s selected p
  = (i ← step_index sq p;
     step ← synthmenu.items sq !! i;
     Some (refocus selected (toggle sq i step), [MenuDraw])).
Proof.
  intros Hk Hf. unfold ttp_press, step_index. rewrite Hk, Hf. simpl.
  destruct (synthmenu.length sq =? 0); reflexivity.
Qed.

(** What a press that returns has done. *)
Lemma ttp_press_inv (s : Settings) (selected sel' : synthmenu.Item)
    (p : Z) (tr : list Event) :
  ttp_press s selected p = Some (sel', tr) ->
  (sel' = selected /\ tr = [] /\
   (keyboard_touch s = false \/ focused selected = None))
  \/ (exists sq i step,
        keyboard_touch s = true /\ focused selected = Some sq /\
        step_index sq p = Some i /\ synthmenu.items sq !! i = Some step /\
        sel' = refocus selected (toggle sq i step) /\ tr = [MenuDraw]).
Proof.
  intros H. destruct (keyboard_touch s) eqn:Hk.
  - destruct (focused selected) as [sq|] eqn:Hf.
    + rewrite (ttp_press_focused _ _ _ _ Hk Hf) in H.
      destruct (step_index sq p) as [i|] eqn:Hi; [|discriminate].
      simpl in H.
      destruct (synthmenu.items sq !! i) as [step|] eqn:Hs; [|discriminate].
      simpl in H. injection H as <- <-.
      right. exists sq, i, step. auto 10.
    + rewrite ttp_press_idle in H by auto. injection H as <- <-. auto.
  - rewrite ttp_press_idle in H by auto. injection H as <- <-. auto.
Qed.

Lemma step_index_toggle (sq : synthmenu.Sequence) (i : nat) (b : bool)
    (p : Z) :
  step_index (toggle sq i b) p = step_index sq p.
Proof. unfold step_index, toggle. simpl. rewrite length_insert. reflexivity. Qed.

Lemma refocus_refocus (selected : synthmenu.Item)
    (a b : synthmenu.Sequence) :
  refocus (refocus selected a) b = refocus selected b.
Proof. destruct selected; reflexivity. Qed.

Lemma refocus_focused (selected : synthmenu.Item) (sq : synthmenu.Sequence) :
  focused selected = Some sq -> refocus selected sq = selected.
Proof.
  destruct selected as [|c|q]; simpl; try discriminate.
  - destruct c; try discriminate. intros [= ->]. reflexivity.
  - intros [= ->]. reflexivity.
Qed.

Lemma toggle_toggle (sq : synthmenu.Sequence) (i : nat) (step : bool) :
  synthmenu.items sq !! i = Some step ->
  toggle (toggle sq i step) i (negb step) = sq.
Proof.
  intros H. destruct sq as [its len]. unfold toggle. simpl in *.
  rewrite list_insert_insert_eq, negb_involutive, list_insert_id by exact H.
  reflexivity.
Qed.

(** X7: a second press on the same position undoes the first: the
    selection is back to what it was (and a press that did nothing does
    nothing again). *)
Theorem touch_press_twice_restores (s : Settings)
    (selected sel' : synthmenu.Item) (p : Z) (tr : list Event) :
  ttp_press s selected p = Some (sel', tr) ->
  ttp_press s sel' p = Some (selected, tr).
Proof.
  intros H. pose proof H as H0.
  apply ttp_press_inv in H
    as [(-> & -> & _)|(sq & i & step & Hk & Hf & Hi & Hs & -> & ->)];
    [exact H0|].
  rewrite (ttp_press_focused s _ (toggle sq i step) p Hk)
    by (apply (focused_refocus _ _ _ Hf)).
  rewrite step_index_toggle, Hi. simpl.
  rewrite list_lookup_insert_eq by (apply lookup_lt_is_Some; eauto).
  simpl. rewrite refocus_refocus, (toggle_toggle _ _ _ Hs).
  rewrite (refocus_focused _ _ Hf). reflexivity.
Qed.

Lemma touch_press_twice_restores_witness :
  let s := {| midi_thru := false; midi_channel := None;
              keyboard_touch := true |} in
  let sel := synthmenu.Seq {| synthmenu.items := [true; false; false];
                              synthmenu.length := 3 |} in
  ttp_press s
    (synthmenu.Seq {| synthmenu.items := [true; true; false];
                      synthmenu.length := 3 |}) 4
  = Some (sel, [MenuDraw]).
Proof.
  apply (touch_press_twice_restores
           {| midi_thru := false; midi_channel := None;
              keyboard_touch := true |}
           (synthmenu.Seq {| synthmenu.items := [true; false; false];
                             synthmenu.length := 3 |})
           (synthmenu.Seq {| synthmenu.items := [true; true; false];
                             synthmenu.length := 3 |}) 4 [MenuDraw]).
  reflexivity.
Defined.

Lemma toggle_commute (sq : synthmenu.Sequence) (i j : nat) (a b : bool) :
  i <> j ->
  toggle (toggle sq i a) j b = toggle (toggle sq j b) i a.
Proof.
  intros Hne. unfold toggle. simpl. f_equal.
  apply list_insert_insert_ne. auto.
Qed.

(** X8: two presses can be made in either order: both orders succeed
    together and leave the same selection. *)
Theorem touch_presses_commute (s : Settings)
    (selected a b : synthmenu.Item) (p q : Z) (tr1 tr2 : list Event) :
  ttp_press s selected p = Some (a, tr1) ->
  ttp_press s a q = Some (b, tr2) ->
  exists a',
    ttp_press s selected q = Some (a', tr2)
    /\ ttp_press s a' p = Some (b, tr1).
Proof.
  intros H1 H2. pose proof H1 as H1'. pose proof H2 as H2'.
  apply ttp_press_inv in H1
    as [(-> & -> & Hidle)|(sq & i & x & Hk & Hf & Hi & Hx & -> & ->)].
  - exists b. split; [exact H2'|].
    apply ttp_press_inv in H2
      as [(-> & -> & _)|(sq & j & y & Hk & Hf & _)]; [exact H1'|].
    destruct Hidle as [Hidle|Hidle]; congruence.
  - pose proof (focused_refocus _ _ (toggle sq i x) Hf) as Hf1.
    apply ttp_press_inv in H2
      as [(_ & _ & [Hidle|Hidle])|(sq1 & j & y & _ & Hf2 & Hj & Hy & -> & ->)];
      try congruence.
    rewrite Hf1 in Hf2. injection Hf2 as <-.
    rewrite step_index_toggle in Hj.
    destruct (decide (i = j)) as [<-|Hne].
    + exists (refocus selected (toggle sq i x)). split.
      * rewrite (ttp_press_focused s _ _ q Hk Hf), Hj. simpl.
        rewrite Hx. reflexivity.
      * rewrite (ttp_press_focused s _ _ p Hk Hf1), step_index_toggle, Hi.
        simpl. simpl in Hy. rewrite Hy. reflexivity.
    + simpl in Hy. rewrite list_lookup_insert_ne in Hy by exact Hne.
      exists (refocus selected (toggle sq j y)). split.
      * rewrite (ttp_press_focused s _ _ q Hk Hf), Hj. simpl.
        rewrite Hy. reflexivity.
      * rewrite (ttp_press_focused s _ (toggle sq j y) p Hk)
          by (apply (focused_refocus _ _ _ Hf)).
        rewrite step_index_toggle, Hi. simpl.
        rewrite list_lookup_insert_ne by auto. rewrite Hx. simpl.
        rewrite !refocus_refocus, (toggle_commute _ _ _ _ _ Hne).
        reflexivity.
Qed.

Lemma touch_presses_commute_witness :
  let s := {| midi_thru := false; midi_channel := None;
              keyboard_touch := true |} in
  exists a',
    ttp_press s
      (synthmenu.Seq {| synthmenu.items := [false; false; false];
                        synthmenu.length := 3 |}) 2
    = Some (a', [MenuDraw])
    /\ ttp_press s a' 0
       = Some (synthmenu.Seq {| synthmenu.items := [true; false; true];
                                synthmenu.length := 3 |}, [MenuDraw]).
Proof.
  apply (touch_presses_commute
           {| midi_thru := false; midi_channel := None;
              keyboard_touch := true |}
           (synthmenu.Seq {| synthmenu.items := [false; false; false];
                             synthmenu.length := 3 |})
           (synthmenu.Seq {| synthmenu.items := [true; false; false];
                             synthmenu.length := 3 |})
           (synthmenu.Seq {| synthmenu.items := [true; false; true];
                             synthmenu.length := 3 |})
           0 2 [MenuDraw] [MenuDraw]); reflexivity.
Defined.

(** X9: touch positions wrap around the focused sequence's length:
    positions that differ by a multiple of the length are handled
    alike. *)
Theorem touch_position_wraps (s : Settings) (selected : synthmenu.Item)
    (sq : synthmenu.Sequence) (p k : Z) :
  focused selected = Some sq ->
  ttp_press s selected (p + k * synthmenu.length sq)
  = ttp_press s selected p.
Proof.
  intros Hf. destruct (keyboard_touch s) eqn:Hk.
  - rewrite !(ttp_press_focused _ _ _ _ Hk Hf). unfold step_index.
    destruct (synthmenu.length sq =? 0) eqn:E; [reflexivity|].
    apply Z.eqb_neq in E. rewrite Z.mod_add by exact E. reflexivity.
  - rewrite !ttp_press_idle by auto. reflexivity.
Qed.

Lemma touch_position_wraps_witness :
  let s := {| midi_thru := false; midi_channel := None;
              keyboard_touch := true |} in
  let sel := synthmenu.Group
               (synthmenu.Seq {| synthmenu.items := [false; false; false; false];
                                 synthmenu.length := 4 |}) in
  ttp_press s sel (1 + 3 * 4) = ttp_press s sel 1.
Proof.
  apply (touch_position_wraps
           {| midi_thru := false; midi_channel := None;
              keyboard_touch := true |}
           (synthmenu.Group
              (synthmenu.Seq {| synthmenu.items := [false; false; false; false];
                                synthmenu.length := 4 |}))
           {| synthmenu.items := [false; false; false; false];
              synthmenu.length := 4 |} 1 3).
  reflexivity.
Defined.

Lemma py_index_None (len i : Z) :
  py_index len i = None <-> (0 <= i /\ len <= i) \/ (i < 0 /\ len + i < 0).
Proof.
  unfold py_index.
  destruct (0 <=? i) eqn:E0.
  - apply Z.leb_le in E0. destruct (i <? len) eqn:E1.
    + apply Z.ltb_lt in E1. split; [discriminate|lia].
    + apply Z.ltb_ge in E1. split; [lia|reflexivity].
  - apply Z.leb_gt in E0. destruct (0 <=? len + i) eqn:E1.
    + apply Z.leb_le in E1. split; [discriminate|lia].
    + apply Z.leb_gt in E1. split; [lia|reflexivity].
Qed.

Lemma py_index_Some_lt (len i : Z) (k : nat) :
  py_index len i = Some k -> (Z.of_nat k < len).
Proof.
  unfold py_index.
  destruct (0 <=? i) eqn:E0.
  - apply Z.leb_le in E0. destruct (i <? len) eqn:E1; [|discriminate].
    apply Z.ltb_lt in E1. intros [= <-]. lia.
  - apply Z.leb_gt in E0. destruct (0 <=? len + i) eqn:E1; [|discriminate].
    apply Z.leb_le in E1. intros [= <-]. lia.
Qed.

(** X10: the touch handler raises exactly when touch is on, a sequence
    is focused, and either its length is 0 (division by zero) or the
    subscript [position % length] falls outside the step items. *)
Theorem touch_press_raises_iff (s : Settings) (selected : synthmenu.Item)
    (p : Z) :
  ttp_press s selected p = None <->
  keyboard_touch s = true /\
  exists sq,
    focused selected = Some sq /\
    (synthmenu.length sq = 0 \/
     synthmenu.length sq <> 0 /\
     let i := p mod synthmenu.length sq in
     let n := Z.of_nat (length (synthmenu.items sq)) in
     (0 <= i /\ n <= i) \/ (i < 0 /\ n + i < 0)).
Proof.
  split.
  - intros H. destruct (keyboard_touch s) eqn:Hk;
      [|rewrite ttp_press_idle in H by auto; discriminate].
    split; [reflexivity|].
    destruct (focused selected) as [sq|] eqn:Hf;
      [|rewrite ttp_press_idle in H by auto; discriminate].
    exists sq. split; [reflexivity|].
    rewrite (ttp_press_focused _ _ _ _ Hk Hf) in H. unfold step_index in H.
    destruct (synthmenu.length sq =? 0) eqn:E.
    + left. apply Z.eqb_eq, E.
    + right. split; [apply Z.eqb_neq, E|].
      destruct (py_index _ _) as [i|] eqn:Hi.
      * exfalso. simpl in H. apply py_index_Some_lt in Hi.
        destruct (lookup_lt_is_Some_2 (synthmenu.items sq) i) as [b Hb];
          [lia|].
        rewrite Hb in H. discriminate.
      * apply py_index_None in Hi. exact Hi.
  - intros (Hk & sq & Hf & Hcase).
    rewrite (ttp_press_focused _ _ _ _ Hk Hf). unfold step_index.
    destruct Hcase as [H0|[Hne Hi]].
    + rewrite H0. reflexivity.
    + apply Z.eqb_neq in Hne. rewrite Hne.
      apply py_index_None in Hi. rewrite Hi. reflexivity.
Qed.

(** ** Grid editor, update after update *)

Section Edits.

Import sequencer.

Implicit Types g : list (list (option Z)).

Lemma put_same g p t v : cell g p t = Some v -> put g p t v = g.
Proof.
  unfold cell, put. destruct ((t <? 0) || (p <? 0)); [reflexivity|].
  destruct (g !! Z.to_nat t) as [row|] eqn:Hrow; [|reflexivity].
  simpl. intros Hc. rewrite (list_insert_id row) by exact Hc.
  apply list_insert_id, Hrow.
Qed.

Lemma put_outside g p t v : cell g p t = None -> put g p t v = g.
Proof.
  unfold cell, put. destruct ((t <? 0) || (p <? 0)); [reflexivity|].
  destruct (g !! Z.to_nat t) as [row|] eqn:Hrow; [|reflexivity].
  simpl. intros Hc. apply lookup_ge_None in Hc.
  rewrite (list_insert_ge row) by exact Hc.
  apply list_insert_id, Hrow.
Qed.

Lemma cell_put g p t v p' t' :
  cell (put g p t v) p' t' = cell g p' t'
  \/ (p' = p /\ t' = t /\ cell (put g p t v) p' t' = Some v).
Proof.
  destruct (decide (p' = p)) as [->|Hp];
    [|left; apply cell_put_ne; auto].
  destruct (decide (t' = t)) as [->|Ht];
    [|left; apply cell_put_ne; auto].
  destruct (cell g p t) as [c|] eqn:Hc.
  - right. rewrite cell_put_eq by eauto. auto.
  - left. rewrite put_outside by exact Hc. exact Hc.
Qed.

Lemma put_shape n m g p t v :
  grid_shape n m g -> grid_shape n m (put g p t v).
Proof.
  intros [Hn Hm]. unfold put.
  destruct ((t <? 0) || (p <? 0)); [split; assumption|].
  destruct (g !! Z.to_nat t) as [row|] eqn:Hrow; [|split; assumption].
  split; [rewrite length_insert; exact Hn|].
  apply Forall_insert; [exact Hm|].
  rewrite length_insert.
  apply (proj1 (Forall_lookup _ _) Hm _ _ Hrow).
Qed.

Lemma put_canonical g p t :
  canonical_notes g ->
  canonical_notes (put g p t (Some (t + 1)))
  /\ canonical_notes (put g p t None).
Proof.
  intros Hg. split; intros p' t' n Hc.
  - destruct (cell_put g p t (Some (t + 1)) p' t') as [E|(-> & -> & E)];
      rewrite E in Hc; [apply (Hg _ _ _ Hc)|congruence].
  - destruct (cell_put g p t None p' t') as [E|(-> & -> & E)];
      rewrite E in Hc; [apply (Hg _ _ _ Hc)|congruence].
Qed.

Lemma shape_cell n m g p t :
  grid_shape n m g ->
  0 <= t < Z.of_nat n -> 0 <= p < Z.of_nat m ->
  is_Some (cell g p t).
Proof.
  intros [Hn Hm] Ht Hp. unfold cell.
  assert (E : (t <? 0) || (p <? 0) = false).
  { apply orb_false_iff. split; apply Z.ltb_ge; lia. }
  rewrite E.
  destruct (lookup_lt_is_Some_2 g (Z.to_nat t)) as [row Hrow]; [lia|].
  rewrite Hrow. simpl. apply lookup_lt_is_Some.
  rewrite (proj1 (Forall_lookup _ _) Hm _ _ Hrow). lia.
Qed.

Lemma cell_Some_track g p t c :
  cell g p t = Some c -> 0 <= t < tracks g.
Proof.
  unfold cell, tracks. destruct ((t <? 0) || (p <? 0)) eqn:E; [discriminate|].
  apply orb_false_iff in E as [Et _]. apply Z.ltb_ge in Et.
  destruct (g !! Z.to_nat t) as [row|] eqn:Hrow; [|discriminate].
  intros _. apply lookup_lt_Some in Hrow. lia.
Qed.

(** Whatever the loop's writes preserve, the loop preserves. *)
Lemma track_loop_preserves (P : list (list (option Z)) -> Prop) (track : Z) :
  (forall g i, P g -> P (set_note g i (track + 1) track)) ->
  (forall g i, P g -> P (remove_note g i track)) ->
  forall value g i g' calls,
    P g -> track_loop g track i value = Some (g', calls) -> P g'.
Proof.
  intros Hset Hrem. induction value as [|state rest IH];
    intros g i g' calls HP Hrun.
  - injection Hrun as <- <-. exact HP.
  - cbn [track_loop] in Hrun. destruct state.
    + destruct (has_note g i track) as [[|]|]; simpl in Hrun;
        [|
         |discriminate].
      * apply (IH _ _ _ _ HP Hrun).
      * destruct (track_loop _ track (i + 1) rest) as [[g1 c1]|] eqn:Hr;
          [|discriminate].
        simpl in Hrun. injection Hrun as <- <-.
        apply (IH _ _ _ _ (Hset g i HP) Hr).
    + destruct (track_loop _ track (i + 1) rest) as [[g1 c1]|] eqn:Hr;
        [|discriminate].
      simpl in Hrun. injection Hrun as <- <-.
      apply (IH _ _ _ _ (Hrem g i HP) Hr).
Qed.

Lemma update_preserves (P : list (list (option Z)) -> Prop) (track : Z) :
  (forall g i, P g -> P (set_note g i (track + 1) track)) ->
  (forall g i, P g -> P (remove_note g i track)) ->
  forall value g g' calls,
    P g -> update_sequencer_track g track value = Some (g', calls) -> P g'.
Proof.
  intros Hset Hrem value g g' calls HP Hrun.
  unfold update_sequencer_track in Hrun.
  destruct ((tracks g <? track) || (track <? 0)).
  - injection Hrun as <- <-. exact HP.
  - apply (track_loop_preserves P track Hset Hrem _ _ _ _ _ HP Hrun).
Qed.

Lemma update_keeps_shape n m g track value g' calls :
  grid_shape n m g ->
  update_sequencer_track g track value = Some (g', calls) ->
  grid_shape n m g'.
Proof.
  apply (update_preserves (grid_shape n m) track).
  - intros g0 i. apply put_shape.
  - intros g0 i. apply put_shape.
Qed.

Lemma update_keeps_canonical g track value g' calls :
  canonical_notes g ->
  update_sequencer_track g track value = Some (g', calls) ->
  canonical_notes g'.
Proof.
  apply (update_preserves canonical_notes track).
  - intros g0 i H. apply (put_canonical g0 i track H).
  - intros g0 i H. apply (put_canonical g0 i track H).
Qed.

Lemma update_returns n m g track value :
  grid_shape n m g ->
  0 <= track < Z.of_nat n -> (length value <= m)%nat ->
  is_Some (update_sequencer_track g track value).
Proof.
  intros Hs Ht Hv. unfold update_sequencer_track.
  assert (E : (tracks g <? track) || (track <? 0) = false).
  { apply orb_false_iff. unfold tracks. rewrite (proj1 Hs).
    split; apply Z.ltb_ge; lia. }
  rewrite E.
  destruct (track_loop_spec track value g 0) as (g' & calls & Hrun & _).
  - intros j Hj. apply (shape_cell n m); [exact Hs|lia|lia].
  - rewrite Hrun. eauto.
Qed.

(** X11: on a store of [n] tracks of [m] cells, an update of a track
    below [n] with a vector of at most [m] booleans never raises, and
    any update that returns leaves the dimensions of the store as they
    were. *)
Theorem grid_update_keeps_shape (n m : nat) (g : list (list (option Z)))
    (track : Z) (value : list bool) :
  grid_shape n m g ->
  (0 <= track < Z.of_nat n -> (length value <= m)%nat ->
   is_Some (update_sequencer_track g track value))
  /\ (forall g' calls,
        update_sequencer_track g track value = Some (g', calls) ->
        grid_shape n m g').
Proof.
  intros Hs. split.
  - apply (update_returns n m g track value Hs).
  - intros g' calls. apply update_keeps_shape, Hs.
Qed.

Lemma grid_update_keeps_shape_witness :
  is_Some (update_sequencer_track initial_store 7 [true; false; true])
  /\ (forall g' calls,
        update_sequencer_track initial_store 7 [true; false; true]
        = Some (g', calls) ->
        grid_shape 8 16 g').
Proof.
  assert (Hs : grid_shape 8 16 initial_store).
  { split; [reflexivity|]. repeat constructor. }
  destruct (grid_update_keeps_shape 8 16 initial_store 7 [true; false; true]
              Hs) as [H1 H2].
  split; [apply H1; simpl; lia|exact H2].
Defined.

(** X12: the editor keeps every stored note equal to its track's own
    note number: if each note in the store is [track + 1] for its track
    before an update, so it is afterwards. *)
Theorem grid_update_keeps_canonical_notes (g g' : list (list (option Z)))
    (track : Z) (value : list bool) (calls : list StoreCall) :
  canonical_notes g ->
  update_sequencer_track g track value = Some (g', calls) ->
  canonical_notes g'.
Proof. apply update_keeps_canonical. Qed.

Lemma grid_update_keeps_canonical_notes_witness :
  canonical_notes [[Some 1; Some 1]; [None; Some 2]].
Proof.
  apply (grid_update_keeps_canonical_notes
           [[None; Some 1]; [None; Some 2]]
           [[Some 1; Some 1]; [None; Some 2]] 0 [true; true]
           [SetNote 0 1 0]).
  - intros p t n. unfold cell.
    destruct ((t <? 0) || (p <? 0)) eqn:E; [discriminate|].
    apply orb_false_iff in E as [Et0 Ep0]. apply Z.ltb_ge in Et0, Ep0.
    destruct (Z.to_nat t) as [|[|k]] eqn:Et;
      destruct (Z.to_nat p) as [|[|j]] eqn:Ep; simpl;
      try discriminate; intros [= <-]; lia.
  - reflexivity.
Defined.

End Edits.

Section Replay.

Import sequencer.

Implicit Types g : list (list (option Z)).

Lemma has_note_false_cell g p t :
  has_note g p t = Some false -> cell g p t = Some None.
Proof.
  unfold has_note. destruct (cell g p t) as [[n|]|]; simpl;
    [discriminate|reflexivity|discriminate].
Qed.

(** On a store that already agrees with the vector, the loop writes
    nothing new. *)
Lemma track_loop_settled (track : Z) (value : list bool) : forall g i,
  (forall (j : nat) state, value !! j = Some state ->
     has_note g (i + Z.of_nat j) track = Some state) ->
  exists calls,
    track_loop g track i value = Some (g, calls)
    /\ Forall (fun c => is_remove c = true) calls.
Proof.
  induction value as [|state rest IH]; intros g i Hag.
  - exists []. split; [reflexivity|constructor].
  - pose proof (Hag 0%nat state eq_refl) as H0. rewrite Z.add_0_r in H0.
    destruct (IH g (i + 1)) as (calls & Hrun & Hrem).
    { intros j st Hj.
      replace (i + 1 + Z.of_nat j) with (i + Z.of_nat (S j)) by lia.
      apply Hag. exact Hj. }
    cbn [track_loop]. destruct state.
    + rewrite H0. simpl. exists calls. auto.
    + unfold remove_note.
      rewrite (put_same _ _ _ _ (has_note_false_cell _ _ _ H0)), Hrun.
      simpl. exists (RemoveNote i track :: calls). split; [reflexivity|].
      constructor; [reflexivity|exact Hrem].
Qed.

(** X13: applying the same vector a second time changes nothing: the
    store is left exactly as the first update left it, and the only
    calls made are [remove_note] calls on cells that are already
    empty. *)
Theorem grid_update_idempotent (g g' : list (list (option Z)))
    (track : Z) (value : list bool) (calls : list StoreCall) :
  0 <= track < tracks g ->
  (forall j, (j < length value)%nat ->
     is_Some (cell g (Z.of_nat j) track)) ->
  update_sequencer_track g track value = Some (g', calls) ->
  exists calls',
    update_sequencer_track g' track value = Some (g', calls')
    /\ Forall (fun c => is_remove c = true) calls'.
Proof.
  intros Ht Hin Hrun.
  assert (Htr : tracks g' = tracks g).
  { apply (update_preserves (fun g0 => tracks g0 = tracks g) track)
      with (value := value) (g := g) (calls := calls);
      [| |reflexivity|exact Hrun];
      intros g0 i H0; unfold set_note, remove_note;
      rewrite tracks_put; exact H0. }
  assert (E : forall g0, tracks g0 = tracks g ->
                (tracks g0 <? track) || (track <? 0) = false).
  { intros g0 H0. rewrite H0. apply orb_false_iff.
    split; apply Z.ltb_ge; lia. }
  unfold update_sequencer_track in Hrun |- *.
  rewrite (E g eq_refl) in Hrun. rewrite (E g' Htr).
  destruct (track_loop_spec track value g 0)
    as (g1 & c1 & Hrun1 & _ & _ & Hcells).
  { intros j Hj. rewrite Z.add_0_l. apply Hin, Hj. }
  rewrite Hrun in Hrun1. injection Hrun1 as <- <-.
  apply track_loop_settled. intros j state Hj.
  apply (Hcells j state Hj).
Qed.

Lemma grid_update_idempotent_witness :
  exists calls',
    update_sequencer_track [[Some 1; None; None]] 0 [true; false]
    = Some ([[Some 1; None; None]], calls')
    /\ Forall (fun c => is_remove c = true) calls'.
Proof.
  apply (grid_update_idempotent
           [[None; Some 1; None]] [[Some 1; None; None]] 0 [true; false]
           [SetNote 0 1 0; RemoveNote 1 0]).
  - vm_compute. split; [discriminate|reflexivity].
  - intros j Hj. simpl in Hj.
    destruct j as [|[|j]]; try (simpl; eauto); lia.
  - reflexivity.
Defined.

Lemma initial_store_shape : grid_shape 8 16 initial_store.
Proof. split; [reflexivity|]. repeat constructor. Qed.

Lemma initial_store_canonical : canonical_notes initial_store.
Proof.
  intros p t n. unfold cell, initial_store.
  destruct ((t <? 0) || (p <? 0)); [discriminate|].
  destruct (replicate (length voices) (replicate 16 None) !! Z.to_nat t)
    as [row|] eqn:Hrow; [|discriminate].
  apply lookup_replicate in Hrow as [-> _]. cbn -[replicate].
  intros Hc. apply lookup_replicate in Hc as [Hc _]. discriminate.
Qed.

(** The edits the menu can make: a track of [enumerate(voices)] and a
    vector of at most 16 steps. *)
Lemma apply_edits_invariant (edits : list (Z * list bool)) : forall g,
  grid_shape 8 16 g -> canonical_notes g ->
  Forall (fun e => 0 <= e.1 < 8 /\ (length e.2 <= 16)%nat) edits ->
  exists g',
    apply_edits g edits = Some g'
    /\ grid_shape 8 16 g' /\ canonical_notes g'.
Proof.
  induction edits as [|[track value] rest IH]; intros g Hs Hc Hall.
  - exists g. auto.
  - apply Forall_cons in Hall as [[Ht Hv] Hall]. simpl in Ht, Hv.
    destruct (update_returns 8 16 g track value Hs) as [[g1 c1] Hrun];
      [lia|exact Hv|].
    cbn [apply_edits]. rewrite Hrun. simpl.
    apply IH; [|
               |exact Hall].
    + apply (update_keeps_shape _ _ _ _ _ _ _ Hs Hrun).
    + apply (update_keeps_canonical _ _ _ _ _ Hc Hrun).
Qed.

(** X14: starting from the empty store, any series of grid-editor
    updates on the eight tracks (vectors of at most 16 steps) goes
    through without raising, and every note it leaves in the store on
    track [t] is the note [t + 1]; played back by the clock, that note
    presses voice [t] and its release ends with the release of voice
    [t]. *)
Theorem editor_notes_play_their_track (edits : list (Z * list bool)) :
  Forall (fun e => 0 <= e.1 < 8 /\ (length e.2 <= 16)%nat) edits ->
  exists g,
    apply_edits initial_store edits = Some g
    /\ forall p t n,
         cell g p t = Some (Some n) ->
         0 <= t < 8 /\ n = t + 1
         /\ forall s v,
              voice_events (sequencer_press s n v) = [VoicePress t v]
              /\ last (voice_events (sequencer_release n))
                 = Some (VoiceRelease t).
Proof.
  intros Hall.
  destruct (apply_edits_invariant edits initial_store
              initial_store_shape initial_store_canonical Hall)
    as (g & Hrun & Hs & Hc).
  exists g. split; [exact Hrun|]. intros p t n Hcell.
  pose proof (cell_Some_track _ _ _ _ Hcell) as Ht.
  unfold tracks in Ht. rewrite (proj1 Hs) in Ht.
  pose proof (Hc _ _ _ Hcell) as ->.
  assert (Hres : (t + 1 - 1) mod 8 = t)
    by (replace (t + 1 - 1) with t by lia; apply Z.mod_small; lia).
  split; [lia|]. split; [reflexivity|]. intros s v. split.
  - unfold sequencer_press. simpl. rewrite len_voices_8, Hres. reflexivity.
  - rewrite clock_release_voice_events, Hres.
    destruct (t =? 3); reflexivity.
Qed.

Lemma editor_notes_play_their_track_witness :
  exists g,
    apply_edits initial_store [(3, [true; false; true]); (0, [true])]
    = Some g
    /\ forall p t n,
         cell g p t = Some (Some n) ->
         0 <= t < 8 /\ n = t + 1
         /\ forall s v,
              voice_events (sequencer_press s n v) = [VoicePress t v]
              /\ last (voice_events (sequencer_release n))
                 = Some (VoiceRelease t).
Proof.
  apply (editor_notes_play_their_track
           [(3, [true; false; true]); (0, [true])]).
  repeat constructor; simpl; lia.
Defined.

Lemma cell_beyond_tracks g p : cell g p (tracks g) = None.
Proof.
  unfold cell, tracks. destruct (_ || _); [reflexivity|].
  rewrite Nat2Z.id, (lookup_ge_None_2 g (length g)) by lia. reflexivity.
Qed.

Lemma track_loop_outside (track : Z) (value : list bool) : forall g i,
  (forall p, cell g p track = None) ->
  true ∈ value -> track_loop g track i value = None.
Proof.
  induction value as [|state rest IH]; intros g i Hout Hin.
  - apply elem_of_nil in Hin. contradiction.
  - cbn [track_loop]. destruct state.
    + unfold has_note. rewrite Hout. reflexivity.
    + apply elem_of_cons in Hin as [Hin|Hin]; [discriminate|].
      unfold remove_note. rewrite (put_outside _ _ _ _ (Hout i)).
      rewrite (IH g (i + 1) Hout Hin). reflexivity.
Qed.

(** X15: the guard of [update_sequencer_track] ignores a track index
    below 0 or above [sequencer.tracks], but lets the index equal to
    [sequencer.tracks] through: on that index, which names no track, an
    update whose vector has a true cell raises instead of being
    ignored. *)
Theorem grid_update_guard_boundary (g : list (list (option Z)))
    (track : Z) (value : list bool) :
  (track < 0 \/ tracks g < track ->
   update_sequencer_track g track value = Some (g, []))
  /\
  (track = tracks g -> true ∈ value ->
   update_sequencer_track g track value = None).
Proof.
  split.
  - intros H. unfold update_sequencer_track.
    assert (E : (tracks g <? track) || (track <? 0) = true).
    { apply orb_true_iff. destruct H; [right|left]; apply Z.ltb_lt; lia. }
    rewrite E. reflexivity.
  - intros -> Hin. unfold update_sequencer_track.
    assert (E : (tracks g <? tracks g) || (tracks g <? 0) = false).
    { apply orb_false_iff. unfold tracks. split; apply Z.ltb_ge; lia. }
    rewrite E. apply track_loop_outside; [apply cell_beyond_tracks|exact Hin].
Qed.

Lemma track_loop_ascending (track : Z) (value : list bool) :
  forall g i g' calls,
    track_loop g track i value = Some (g', calls) ->
    Forall (fun c => i <= call_position c) calls
    /\ forall (a b : nat) ca cb,
         calls !! a = Some ca -> calls !! b = Some cb -> (a < b)%nat ->
         call_position ca < call_position cb.
Proof.
  induction value as [|state rest IH]; intros g i g' calls Hrun.
  - injection Hrun as <- <-. split; [constructor|].
    intros a b ca cb Ha. discriminate.
  - assert (Hcons : forall g1 c1 c,
               track_loop g1 track (i + 1) rest = Some (g', c1) ->
               call_position c = i ->
               Forall (fun c => i <= call_position c) (c :: c1)
               /\ forall (a b : nat) ca cb,
                    (c :: c1) !! a = Some ca -> (c :: c1) !! b = Some cb ->
                    (a < b)%nat -> call_position ca < call_position cb).
    { intros g1 c1 c Hr Hc. destruct (IH _ _ _ _ Hr) as [Hlow Hord].
      split.
      - constructor; [lia|].
        eapply Forall_impl; [exact Hlow|]. simpl. intros; lia.
      - intros [|a] [|b] ca cb Ha Hb Hab; try lia.
        + simpl in Ha, Hb. injection Ha as <-.
          apply (proj1 (Forall_lookup _ _) Hlow) in Hb. lia.
        + simpl in Ha, Hb. apply (Hord a b); [assumption..|lia]. }
    cbn [track_loop] in Hrun. destruct state.
    + destruct (has_note g i track) as [[|]|]; simpl in Hrun;
        [|
         |discriminate].
      * destruct (IH _ _ _ _ Hrun) as [Hlow Hord]. split; [|exact Hord].
        eapply Forall_impl; [exact Hlow|]. simpl. intros; lia.
      * destruct (track_loop _ track (i + 1) rest) as [[g1 c1]|] eqn:Hr;
          [|discriminate].
        simpl in Hrun. injection Hrun as <- <-.
        apply (Hcons _ _ _ Hr). reflexivity.
    + destruct (track_loop _ track (i + 1) rest) as [[g1 c1]|] eqn:Hr;
        [|discriminate].
      simpl in Hrun. injection Hrun as <- <-.
      apply (Hcons _ _ _ Hr). reflexivity.
Qed.

(** X16: the calls of one update come in strictly ascending order of
    position, so that no cell is written twice, and no call has a
    negative position. *)
Theorem grid_update_calls_ascending (g g' : list (list (option Z)))
    (track : Z) (value : list bool) (calls : list StoreCall) :
  update_sequencer_track g track value = Some (g', calls) ->
  (forall (a : nat) ca, calls !! a = Some ca -> 0 <= call_position ca)
  /\
  (forall (a b : nat) ca cb,
     calls !! a = Some ca -> calls !! b = Some cb -> (a < b)%nat ->
     0 <= call_position ca < call_position cb).
Proof.
  intros Hrun. unfold update_sequencer_track in Hrun.
  destruct ((tracks g <? track) || (track <? 0)).
  - injection Hrun as <- <-. split; intros; discriminate.
  - destruct (track_loop_ascending _ _ _ _ _ _ Hrun) as [Hlow Hord].
    split.
    + intros a ca Ha. apply (proj1 (Forall_lookup _ _) Hlow _ _ Ha).
    + intros a b ca cb Ha Hb Hab.
      split; [|apply (Hord a b); assumption].
      apply (proj1 (Forall_lookup _ _) Hlow _ _ Ha).
Qed.

Lemma grid_update_calls_ascending_witness :
  0 <= call_position (SetNote 0 1 0) < call_position (SetNote 2 1 0).
Proof.
  apply (proj2 (grid_update_calls_ascending
                  [[None; Some 1; None]] [[Some 1; None; Some 1]] 0
                  [true; false; true]
                  [SetNote 0 1 0; RemoveNote 1 0; SetNote 2 1 0] eq_refl)
               0%nat 2%nat); [reflexivity | reflexivity | lia].
Defined.

End Replay.

(** ** Notes, voices and velocities across the paths *)

Lemma resolve_period (n k : Z) : (n + 8 * k - 1) mod 8 = (n - 1) mod 8.
Proof.
  replace (n + 8 * k - 1) with (n - 1 + k * 8) by lia.
  apply Z.mod_add. lia.
Qed.

(** The calls on voices of the MIDI input path, filter included. *)
Lemma midi_voice_events_filtered (s : Settings) (msg : MIDIMessage) :
  voice_events (midi_process_message s msg) =
  if channel_rejected s msg then []
  else match msg with
       | NoteOn note velocity _ =>
           if 0 <? velocity
           then [VoicePress ((note - 1) mod 8) (inject_Z velocity)]
           else [VoiceRelease ((note - 1) mod 8)]
       | NoteOff note _ _ => [VoiceRelease ((note - 1) mod 8)]
       | _ => []
       end.
Proof.
  destruct (channel_rejected s msg) eqn:Hc.
  - apply (midi_rejected_no_voice _ _ Hc).
  - apply (midi_voice_events _ _ Hc).
Qed.

(** X17: note numbers that differ by a multiple of 8 reach the same
    voice on every path, clock or MIDI-In, press or release; the MIDI
    sent for them by the clock callbacks still differs, as it carries
    the note number as given. *)
Theorem notes_alias_modulo_8 (s : Settings) (n k vel : Z) (v : Q)
    (ch : option Z) :
  voice_events (sequencer_press s (n + 8 * k) v)
  = voice_events (sequencer_press s n v)
  /\ voice_events (sequencer_release (n + 8 * k))
     = voice_events (sequencer_release n)
  /\ voice_events (midi_process_message s (NoteOn (n + 8 * k) vel ch))
     = voice_events (midi_process_message s (NoteOn n vel ch))
  /\ voice_events (midi_process_message s (NoteOff (n + 8 * k) vel ch))
     = voice_events (midi_process_message s (NoteOff n vel ch))
  /\ (k <> 0 ->
      midi_sends (sequencer_press s (n + 8 * k) v)
      <> midi_sends (sequencer_press s n v)
      /\ midi_sends (sequencer_release (n + 8 * k))
         <> midi_sends (sequencer_release n)).
Proof.
  split; [|split; [|split; [|split]]].
  - unfold sequencer_press. simpl. rewrite len_voices_8, resolve_period.
    reflexivity.
  - rewrite !clock_release_voice_events, resolve_period. reflexivity.
  - rewrite !midi_voice_events_filtered, resolve_period. reflexivity.
  - rewrite !midi_voice_events_filtered, resolve_period. reflexivity.
  - intros Hk. split.
    + unfold sequencer_press. simpl. intros H. injection H as H. lia.
    + rewrite !clock_release_midi_sends. intros H. injection H as H. lia.
Qed.

Lemma py_int_scaled_low (v : Q) :
  (0 <= v)%Q -> (v <= 1 # 128)%Q -> py_int (v * 127)%Q = 0.
Proof.
  destruct v as [a d]. unfold Qle, py_int. simpl. intros H0 H1.
  rewrite Pos.mul_1_r, Z.quot_div_nonneg by lia.
  apply Z.div_small. lia.
Qed.

Lemma py_int_scaled_high (v : Q) :
  (1 # 127 <= v)%Q -> 1 <= py_int (v * 127)%Q.
Proof.
  destruct v as [a d]. unfold Qle, py_int. simpl. intros H1.
  rewrite Pos.mul_1_r, Z.quot_div_nonneg by lia.
  apply Z.div_le_lower_bound; lia.
Qed.

(** X18: the Note-On that [sequencer_press] sends for a velocity from 0
    to 1/128 has velocity 0, and an instrument running this same input
    path that accepts the message releases the voice on it; from 1/127
    upwards the velocity sent is at least 1 and the receiver presses the
    same voice.  (Between 1/128 and 1/127 the outcome depends on the
    rounding of the product and is left open.) *)
Theorem soft_press_is_sent_as_release (s s' : Settings) (n : Z) (v : Q) :
  channel_rejected s' (NoteOn n (py_int (v * 127)%Q) (midi_channel s))
  = false ->
  let msg := NoteOn n (py_int (v * 127)%Q) (midi_channel s) in
  MidiSend Uart msg ∈ sequencer_press s n v
  /\ MidiSend Usb msg ∈ sequencer_press s n v
  /\ ((0 <= v)%Q -> (v <= 1 # 128)%Q ->
      py_int (v * 127)%Q = 0
      /\ voice_events (midi_process_message s' msg)
         = [VoiceRelease ((n - 1) mod 8)])
  /\ ((1 # 127 <= v)%Q ->
      1 <= py_int (v * 127)%Q
      /\ voice_events (midi_process_message s' msg)
         = [VoicePress ((n - 1) mod 8) (inject_Z (py_int (v * 127)%Q))]).
Proof.
  intros Hc msg.
  split; [apply list_elem_of_further, list_elem_of_here|].
  split; [apply list_elem_of_further, list_elem_of_further,
            list_elem_of_here|].
  split.
  - intros H0 H1. pose proof (py_int_scaled_low v H0 H1) as Hz.
    split; [exact Hz|].
    unfold msg. rewrite (midi_voice_events _ _ Hc), Hz. reflexivity.
  - intros H1. pose proof (py_int_scaled_high v H1) as Hz.
    split; [exact Hz|].
    unfold msg. rewrite (midi_voice_events _ _ Hc).
    assert (Hpos : (0 <? py_int (v * 127)%Q) = true)
      by (apply Z.ltb_lt; lia).
    rewrite Hpos. reflexivity.
Qed.

Lemma soft_press_is_sent_as_release_witness :
  let s := {| midi_thru := false; midi_channel := Some 2;
              keyboard_touch := true |} in
  MidiSend Usb (NoteOn 1 0 (Some 2)) ∈ sequencer_press s 1 (1 # 200)
  /\ voice_events (midi_process_message s (NoteOn 1 0 (Some 2)))
     = [VoiceRelease 0].
Proof.
  assert (H0 : (0 <= 1 # 200)%Q) by (unfold Qle; simpl; lia).
  assert (H1 : (1 # 200 <= 1 # 128)%Q) by (unfold Qle; simpl; lia).
  pose proof (soft_press_is_sent_as_release
                {| midi_thru := false; midi_channel := Some 2;
                   keyboard_touch := true |}
                {| midi_thru := false; midi_channel := Some 2;
                   keyboard_touch := true |} 1 (1 # 200) eq_refl) as H.
  destruct H as (_ & Hu & Hr & _).
  split; [exact Hu|exact (proj2 (Hr H0 H1))].
Defined.

(** X19: a release reaches the voice the matching press reached: the
    clock release of note [n] releases the voice its clock press
    pressed, and on MIDI-In a Note-Off, or a Note-On with velocity 0,
    for note [n] on the same channel releases the voice the Note-On
    pressed. *)
Theorem release_reaches_pressed_voice (s : Settings) (n vel vel' t : Z)
    (v x : Q) (ch : option Z) :
  (VoicePress t x ∈ sequencer_press s n v ->
   VoiceRelease t ∈ sequencer_release n)
  /\
  (VoicePress t x ∈ midi_process_message s (NoteOn n vel ch) ->
   VoiceRelease t ∈ midi_process_message s (NoteOff n vel' ch)
   /\ VoiceRelease t ∈ midi_process_message s (NoteOn n 0 ch)).
Proof.
  split.
  - intros Hp. apply voice_events_elem in Hp; [|reflexivity].
    unfold sequencer_press in Hp. simpl in Hp.
    apply list_elem_of_singleton in Hp. injection Hp as -> _.
    rewrite len_voices_8.
    apply voice_events_sub. rewrite clock_release_voice_events.
    apply elem_of_app. right. apply list_elem_of_here.
  - intros Hp. apply voice_events_elem in Hp; [|reflexivity].
    rewrite midi_voice_events_filtered in Hp.
    destruct (channel_rejected s (NoteOn n vel ch)) eqn:Hc;
      [apply elem_of_nil in Hp; contradiction|].
    destruct (0 <? vel);
      apply list_elem_of_singleton in Hp; [|discriminate].
    injection Hp as -> _.
    split; apply voice_events_sub; rewrite midi_voice_events_filtered.
    + change (channel_rejected s (NoteOff n vel' ch))
        with (channel_rejected s (NoteOn n vel ch)).
      rewrite Hc. apply list_elem_of_here.
    + change (channel_rejected s (NoteOn n 0 ch))
        with (channel_rejected s (NoteOn n vel ch)).
      rewrite Hc. apply list_elem_of_here.
Qed.
